(** * Diffraction-limit calculator: model and verification

    This development embeds [site/diffraction/diffraction.js], the function
    [calculateDiffractionLimit] and the script around it, and proves the
    properties its specification states.

    Numbers.  The specification types every quantity as a real, so the
    function is read in exact arithmetic: a JavaScript number is a real number
    of the Standard Library, [Math.acos], [Math.sqrt] and [Math.PI] are
    [acos], [sqrt] and [PI], and a comparison is decided by [Rle_dec] and
    [Rlt_dec].  Where a property of the transfer function turns on the
    rounding of the doubles the code computes with, module [Double] gives the
    same arrow function over binary64 numbers.  Infinities and NaN are in
    neither reading of the function's inputs.

    Control.  A [throw] is the left injection of a sum, the [while] loop is a
    recursive function over the loop state whose fuel is the number of times
    the body may run, and [break] is a constructor of the body's result.

    Variables.  Module [Store] gives the function a second time, statement by
    statement over the scopes its names are resolved in, so that what a call
    reads and writes outside its own scope is a matter of proof. *)

From Stdlib Require Import Reals Lra Lia ZArith String Bool List.
From Stdlib Require PrimInt63 PrimFloat.
Import ListNotations.

#[local] Open Scope R_scope.

(** ** Numbers and comparisons *)

Module Num.

(** [a <= b], [a < b], [a >= b] and [a > b] as JavaScript evaluates them to
    a boolean. *)
Definition leb (a b : R) : bool := if Rle_dec a b then true else false.
Definition ltb (a b : R) : bool := if Rlt_dec a b then true else false.
Definition geb (a b : R) : bool := leb b a.
Definition gtb (a b : R) : bool := ltb b a.

(** [Number(x.toFixed(digits))]: [toFixed] takes the integer [n] for which
    [n / 10^digits - x] is closest to zero, the larger one on a tie, after
    moving the sign of a negative [x] out; [Number] reads the decimal back. *)
Definition toFixed (x : R) (digits : nat) : R :=
  let scale := 10 ^ digits in
  if Rlt_dec x 0
  then - (IZR (Zfloor (- x * scale + / 2)) / scale)
  else IZR (Zfloor (x * scale + / 2)) / scale.

End Num.

Infix "<=?" := Num.leb (at level 70, no associativity) : R_scope.
Infix "<?" := Num.ltb (at level 70, no associativity) : R_scope.
Infix ">=?" := Num.geb (at level 70, no associativity) : R_scope.
Infix ">?" := Num.gtb (at level 70, no associativity) : R_scope.

(** ** The result record and the error *)

(** The object the function returns.  The two boundary returns build an object
    with the two frequency fields only; the last return builds all four. *)
Record result : Type := mkResult {
  spatialFrequency : R;
  cutoffFrequency : R;
  normalizedFrequency : option R;
  iterations : option nat
}.

(** [new Error(message)]. *)
Inductive error : Type := Error (message : string).

Definition outcome : Type := (error + result)%type.

Definition throw (message : string) : outcome := inl (Error message).

(** ** The modulation transfer function *)

(** The arrow function [mtf] of the source, in exact arithmetic. *)
Definition mtf (u : R) : R :=
  if u <=? 0 then 1
  else if u >=? 1 then 0
  else (2 / PI) * (acos u - u * sqrt (1 - u * u)).

(** ** The bisection loop *)

Definition tolerance : R := 1e-6.
Definition maxIterations : nat := 100.

(** The variables the loop assigns: [low], [high], [u] and [iterations]. *)
Record vars : Type := mkVars {
  low : R;
  high : R;
  u : R;
  count : nat
}.

(** The state at the loop's entry. *)
Definition init : vars :=
  {| low := 0; high := 1; u := 0.5; count := 0 |}.

(** [(high - low) > tolerance && iterations < maxIterations]. *)
Definition loop_cond (s : vars) : bool :=
  (high s - low s >? tolerance) && (count s <? maxIterations)%nat.

(** How one run of the body ends: at the [break], or at its last statement. *)
Inductive completion : Type :=
| Break (s : vars)
| Normal (s : vars).

Definition loop_body (targetMtf : R) (s : vars) : completion :=
  let u' := (low s + high s) / 2 in
  let currentMtf := mtf u' in
  if Rabs (currentMtf - targetMtf) <? tolerance
  then Break {| low := low s; high := high s; u := u'; count := count s |}
  else if currentMtf >? targetMtf
  then Normal {| low := u'; high := high s; u := u'; count := S (count s) |}
  else Normal {| low := low s; high := u'; u := u'; count := S (count s) |}.

(** The loop; [fuel] bounds the number of runs of the body.  The source's own
    condition stops the loop before [maxIterations] runs have been used up
    (lemma [while_loop_exits]). *)
Fixpoint while_loop (fuel : nat) (targetMtf : R) (s : vars) : vars :=
  match fuel with
  | O => s
  | S fuel' =>
      if loop_cond s
      then match loop_body targetMtf s with
           | Break s' => s'
           | Normal s' => while_loop fuel' targetMtf s'
           end
      else s
  end.

(** ** The function *)

Definition calculateDiffractionLimit
    (fNumber contrastPercent wavelengthNm : R) : outcome :=
  if fNumber <=? 0 then throw "f-number must be positive"
  else if (contrastPercent <? 0) || (contrastPercent >? 100)
  then throw "Contrast percentage must be between 0 and 100"
  else if wavelengthNm <=? 0 then throw "Wavelength must be positive"
  else
    let wavelengthMm := wavelengthNm * 1e-6 in
    let cutoff := 1 / (wavelengthMm * fNumber) in
    if contrastPercent >=? 100
    then inr {| spatialFrequency := 0; cutoffFrequency := cutoff;
                normalizedFrequency := None; iterations := None |}
    else if contrastPercent <=? 0
    then inr {| spatialFrequency := cutoff; cutoffFrequency := cutoff;
                normalizedFrequency := None; iterations := None |}
    else
      let targetMtf := contrastPercent / 100 in
      let s := while_loop maxIterations targetMtf init in
      let spatial := u s * cutoff in
      inr {| spatialFrequency := Num.toFixed spatial 1;
             cutoffFrequency := Num.toFixed cutoff 1;
             normalizedFrequency := Some (Num.toFixed (u s) 6);
             iterations := Some (count s) |}.

(** The call with the third argument left out: [wavelengthNm = 520]. *)
Definition calculateDiffractionLimit_default (fNumber contrastPercent : R) : outcome :=
  calculateDiffractionLimit fNumber contrastPercent 520.

(** ** Auxiliary definitions of the proofs *)

(** With [x = acos u] the bracket of [mtf] is [x - sin x * cos x]. *)
Definition angle_form (x : R) : R := x - sin x * cos x.

(** What holds of the loop variables whenever the condition is tested. *)
Record bracket (targetMtf : R) (s : vars) : Prop := mkBracket {
  br_width : high s - low s = (/ 2) ^ count s;
  br_low : 0 <= low s;
  br_high : high s <= 1;
  br_count : (count s <= 20)%nat;
  br_above : targetMtf < mtf (low s);
  br_below : mtf (high s) <= targetMtf;
  br_u : count s = 0%nat \/
         ((u s = low s \/ u s = high s) /\
          (/ 2) ^ 20 <= u s <= 1 - (/ 2) ^ 20)
}.

(** What holds of the loop variables after the loop. *)
Record settled (targetMtf : R) (s : vars) : Prop := mkSettled {
  st_count : (count s <= 20)%nat;
  st_u : (/ 2) ^ 20 <= u s <= 1 - (/ 2) ^ 20;
  st_mtf : Rabs (mtf (u s) - targetMtf) < 2 * tolerance
}.

(** The state after [n] moves up from the entry state. *)
Definition climbed (n : nat) : vars :=
  match n with
  | O => init
  | S _ => {| low := 1 - (/ 2) ^ n; high := 1; u := 1 - (/ 2) ^ n; count := n |}
  end.

(** ** The command line *)

(** The script below the function: [showUsage], the reading of the arguments
    and the report.  What the script writes is kept as the sequence of its
    [console.log] and [console.error] calls, each with the values its
    template interpolates; the conversion of a number to text is not
    modelled.  [parseFloat] is the built-in, taken as a parameter: it gives
    the number a text starts with, or nothing where the built-in gives NaN. *)
Module Cli.

(** A quotient that JavaScript evaluates to [Infinity] when the divisor
    is 0. *)
Inductive shown : Type :=
| Finite (x : R)
| Infinite.

(** One call of [console.log] or [console.error]. *)
Inductive line : Type :=
| UsageText (script : string)
| ArgumentError (message : string)
| CalculationError (message : string)
| Title
| Rule
| ApertureLine (fNumber : R)
| ContrastLine (contrastPercent : R)
| WavelengthLine (wavelengthNm : R)
| CutoffLine (cutoffFrequency : R)
| TargetLine (spatialFrequency : R)
| PrecisionLine (iterations : option nat)
| InterpretationTitle
| ResolveLine (contrastPercent : R)
| FeatureLine (featureSize : shown).

(** [console.error] writes to the error stream, [console.log] to the
    output. *)
Definition to_stderr (l : line) : bool :=
  match l with
  | ArgumentError _ | CalculationError _ => true
  | _ => false
  end.

(** What a run leaves: the lines written, in order, and the exit status. *)
Definition run : Type := (list line * nat)%type.

(** [showUsage()]: the usage text with [process.argv[1]], then
    [process.exit(1)]. *)
Definition showUsage (script : string) : run := ([UsageText script], 1%nat).

(** The first [try] block: the two numbers, then the wavelength when
    [args[2]] is truthy, that is present and not the empty text.  The left
    injection is the message of the [Error] thrown. *)
Definition parse_arguments (parseFloat : string -> option R)
    (a0 a1 : string) (rest : list string) : string + (R * R * R) :=
  match parseFloat a0, parseFloat a1 with
  | Some fNumber, Some contrastPercent =>
      match rest with
      | a2 :: _ =>
          if (a2 =? "")%string then inr (fNumber, contrastPercent, 520)
          else match parseFloat a2 with
               | Some wavelengthNm => inr (fNumber, contrastPercent, wavelengthNm)
               | None => inl "Invalid wavelength value"%string
               end
      | [] => inr (fNumber, contrastPercent, 520)
      end
  | _, _ => inl "Invalid numeric values"%string
  end.

(** [(1000 / (2 * result.spatialFrequency)).toFixed(1)]. *)
Definition featureSize (spatialFrequency : R) : shown :=
  if Req_dec_T spatialFrequency 0 then Infinite
  else Finite (Num.toFixed (1000 / (2 * spatialFrequency)) 1).

(** The twelve [console.log] calls of the second [try] block. *)
Definition report (fNumber contrastPercent wavelengthNm : R) (r : result)
    : list line :=
  [Title; Rule; ApertureLine fNumber; ContrastLine contrastPercent;
   WavelengthLine wavelengthNm; CutoffLine (cutoffFrequency r);
   TargetLine (spatialFrequency r); PrecisionLine (iterations r); Rule;
   InterpretationTitle; ResolveLine contrastPercent;
   FeatureLine (featureSize (spatialFrequency r))].

(** The script from [process.argv.slice(2)] on.  Fewer than two arguments
    show the usage; an [Error] of the first [try] is written and followed by
    the usage; an [Error] of the function is written and the script exits
    with 1; otherwise the report is written and the script ends with 0. *)
Definition main (parseFloat : string -> option R) (script : string)
    (args : list string) : run :=
  match args with
  | a0 :: a1 :: rest =>
      match parse_arguments parseFloat a0 a1 rest with
      | inl message =>
          let (out, code) := showUsage script in
          (ArgumentError message :: out, code)
      | inr (fNumber, contrastPercent, wavelengthNm) =>
          match calculateDiffractionLimit fNumber contrastPercent wavelengthNm with
          | inl (Error message) => ([CalculationError message], 1%nat)
          | inr r => (report fNumber contrastPercent wavelengthNm r, 0%nat)
          end
      end
  | _ => showUsage script
  end.

End Cli.

(** ** The transfer function in doubles *)

(** [mtf] as the code evaluates it: every operation rounds to a binary64
    number.  [Math.sqrt] is the correctly rounded square root and [Math.PI]
    the double next to pi.  [Math.acos] is the fdlibm routine that V8 runs,
    on the arguments [mtf] passes to it, those strictly between 0 and 1. *)
Module Double.

Import PrimInt63 PrimFloat.
#[local] Open Scope float_scope.

Definition PI : float := 0x1.921fb54442d18p+1.

Definition pio2_hi : float := 0x1.921fb54442d18p+0.
Definition pio2_lo : float := 0x1.1a62633145c07p-54.
Definition pS0 : float := 0x1.5555555555555p-3.
Definition pS1 : float := -0x1.4d61203eb6f7dp-2.
Definition pS2 : float := 0x1.9c1550e884455p-3.
Definition pS3 : float := -0x1.48228b5688f3bp-5.
Definition pS4 : float := 0x1.9efe07501b288p-11.
Definition pS5 : float := 0x1.23de10dfdf709p-15.
Definition qS1 : float := -0x1.33a271c8a2d4bp+1.
Definition qS2 : float := 0x1.02ae59c598ac8p+1.
Definition qS3 : float := -0x1.6066c1b8d0159p-1.
Definition qS4 : float := 0x1.3b8c5b12e9282p-4.

(** [p / q], the rational approximation both branches share. *)
Definition rational (z : float) : float :=
  let p := z * (pS0 + z * (pS1 + z * (pS2 + z * (pS3 + z * (pS4 + z * pS5))))) in
  let q := 1 + z * (qS1 + z * (qS2 + z * (qS3 + z * qS4))) in
  p / q.

(** [SET_LOW_WORD(df, 0)]: the low 32 bits of the significand cleared. *)
Definition clear_low_word (s : float) : float :=
  let (m, e) := frshiftexp s in
  let bits := normfr_mantissa m in
  ldshiftexp
    (of_uint63 (PrimInt63.lsl (PrimInt63.lsr bits 32%uint63) 32%uint63))
    (PrimInt63.sub e 53%uint63).

(** [acos x] for [0 < x < 1]: the branch below one half (with its shortcut
    under [2^-57]) and the branch from one half on. *)
Definition acos (x : float) : float :=
  if x <? 0.5 then
    if x <? 0x1.00001p-57 then pio2_hi + pio2_lo
    else
      let z := x * x in
      let r := rational z in
      pio2_hi - (x - (pio2_lo - r * x))
  else
    let z := (1 - x) * 0.5 in
    let s := sqrt z in
    let df := clear_low_word s in
    let c := (z - df * df) / (s + df) in
    let r := rational z in
    let w := r * s + c in
    2 * (df + w).

Definition mtf (u : float) : float :=
  if u <=? 0 then 1
  else if 1 <=? u then 0
  else (2 / PI) * (acos u - u * sqrt (1 - u * u)).


End Double.

(** ** The function over its scopes *)

(** The function once more, one statement after the other, with every
    variable read and written through the scopes a name is resolved in: the
    scope of the call first, then the top level of the script, where
    [fNumber], [contrastPercent] and [wavelengthNm] are bound too.  A read
    of an unbound name is a [ReferenceError]; the script is not in strict
    mode, so an assignment to an unbound name makes a binding at the top
    level.  Every number is kept as a real, the iteration count too.  The
    built-ins [Math], [Number] and [Error] are the constants of the language,
    and the constant [mtf], a function, is called where it is named. *)
Module Store.

#[local] Open Scope string_scope.

(** The bindings of a scope, the latest declaration first. *)
Definition scope : Type := list (string * R).

Fixpoint get (x : string) (f : scope) : option R :=
  match f with
  | [] => None
  | (y, v) :: f' => if (x =? y)%string then Some v else get x f'
  end.

Fixpoint set (x : string) (v : R) (f : scope) : option scope :=
  match f with
  | [] => None
  | (y, w) :: f' =>
      if (x =? y)%string then Some ((y, v) :: f')
      else match set x v f' with
           | Some f'' => Some ((y, w) :: f'')
           | None => None
           end
  end.

(** The scope of the running call above the top level of the script. *)
Record env : Type := mkEnv { locals : scope; globals : scope }.

(** A statement: it may fail with a [ReferenceError], or give a value and
    the scopes it leaves. *)
Definition M (A : Type) : Type := env -> option (A * env).

Definition ret {A : Type} (a : A) : M A := fun e => Some (a, e).

Definition bind {A B : Type} (m : M A) (k : A -> M B) : M B :=
  fun e => match m e with
           | Some (a, e') => k a e'
           | None => None
           end.

Definition read (x : string) : M R :=
  fun e => match get x (locals e) with
           | Some v => Some (v, e)
           | None => match get x (globals e) with
                     | Some v => Some (v, e)
                     | None => None
                     end
           end.

Definition write (x : string) (v : R) : M unit :=
  fun e => match set x v (locals e) with
           | Some l => Some (tt, mkEnv l (globals e))
           | None => match set x v (globals e) with
                     | Some g => Some (tt, mkEnv (locals e) g)
                     | None => Some (tt, mkEnv (locals e) ((x, v) :: globals e))
                     end
           end.

(** [let] and [const], and the binding of a parameter. *)
Definition declare (x : string) (v : R) : M unit :=
  fun e => Some (tt, mkEnv ((x, v) :: locals e) (globals e)).

Declare Scope store_scope.
Delimit Scope store_scope with store.
Notation "x <- m ;; k" := (bind m (fun x => k))
  (at level 61, m at next level, right associativity) : store_scope.
Notation "m ;; k" := (bind m (fun _ => k))
  (at level 61, right associativity) : store_scope.
#[local] Open Scope store_scope.

(** An object literal of numbers: its properties in the order written. *)
Definition object : Type := list (string * R).

(** The [while] loop.  [currentMtf] is a constant of the block and is kept
    as one; [mtf] binds its own parameter and reads no other variable. *)
Fixpoint loop (fuel : nat) : M unit :=
  match fuel with
  | O => ret tt
  | S fuel' =>
      hi <- read "high" ;; lo <- read "low" ;; tol <- read "tolerance" ;;
      it <- read "iterations" ;; mx <- read "maxIterations" ;;
      if (hi - lo >? tol)%R && (it <? mx)%R then
        lo <- read "low" ;; hi <- read "high" ;;
        write "u" ((lo + hi) / 2) ;;
        u <- read "u" ;;
        let currentMtf := mtf u in
        t <- read "targetMtf" ;; tol <- read "tolerance" ;;
        if (Rabs (currentMtf - t) <? tol)%R then ret tt
        else
          t <- read "targetMtf" ;;
          (if (currentMtf >? t)%R
           then u <- read "u" ;; write "low" u
           else u <- read "u" ;; write "high" u) ;;
          it <- read "iterations" ;; write "iterations" (it + 1) ;;
          loop fuel'
      else ret tt
  end.

(** The body of [calculateDiffractionLimit]. *)
Definition body : M (error + object) :=
  f <- read "fNumber" ;;
  if (f <=? 0)%R then ret (inl (Error "f-number must be positive")) else
  c <- read "contrastPercent" ;;
  if (c <? 0)%R || (c >? 100)%R
  then ret (inl (Error "Contrast percentage must be between 0 and 100")) else
  w <- read "wavelengthNm" ;;
  if (w <=? 0)%R then ret (inl (Error "Wavelength must be positive")) else
  w <- read "wavelengthNm" ;;
  declare "wavelengthMm" (w * 1e-6) ;;
  wm <- read "wavelengthMm" ;; f <- read "fNumber" ;;
  declare "cutoffFrequency" (1 / (wm * f)) ;;
  c <- read "contrastPercent" ;;
  if (c >=? 100)%R
  then k <- read "cutoffFrequency" ;;
       ret (inr [("spatialFrequency", 0); ("cutoffFrequency", k)]) else
  c <- read "contrastPercent" ;;
  if (c <=? 0)%R
  then k <- read "cutoffFrequency" ;; k' <- read "cutoffFrequency" ;;
       ret (inr [("spatialFrequency", k); ("cutoffFrequency", k')]) else
  c <- read "contrastPercent" ;;
  declare "targetMtf" (c / 100) ;;
  declare "low" 0 ;; declare "high" 1 ;; declare "u" 0.5 ;;
  declare "tolerance" 1e-6 ;; declare "iterations" 0 ;;
  declare "maxIterations" 100 ;;
  loop maxIterations ;;
  u <- read "u" ;; k <- read "cutoffFrequency" ;;
  declare "spatialFrequency" (u * k) ;;
  sf <- read "spatialFrequency" ;; k <- read "cutoffFrequency" ;;
  u <- read "u" ;; it <- read "iterations" ;;
  ret (inr [("spatialFrequency", Num.toFixed sf 1);
            ("cutoffFrequency", Num.toFixed k 1);
            ("normalizedFrequency", Num.toFixed u 6);
            ("iterations", it)]).

(** A call from the top level [g]: the parameters are bound in a scope of
    the call's own, the body runs, and the scope is dropped at the return. *)
Definition call (g : scope) (fNumber contrastPercent wavelengthNm : R)
    : option ((error + object) * scope) :=
  match body {| locals := [("wavelengthNm", wavelengthNm);
                           ("contrastPercent", contrastPercent);
                           ("fNumber", fNumber)];
                globals := g |} with
  | Some (o, e) => Some (o, globals e)
  | None => None
  end.

(** Calls one after the other, each from the top level the one before
    left. *)
Fixpoint calls (g : scope) (l : list (R * R * R))
    : option (list (error + object) * scope) :=
  match l with
  | [] => Some ([], g)
  | (fNumber, contrastPercent, wavelengthNm) :: l' =>
      match call g fNumber contrastPercent wavelengthNm with
      | Some (o, g') =>
          match calls g' l' with
          | Some (os, g'') => Some (o :: os, g'')
          | None => None
          end
      | None => None
      end
  end.

(** The record of the exact-arithmetic function as an object literal. *)
Definition object_of (r : result) : object :=
  ([("spatialFrequency", spatialFrequency r);
    ("cutoffFrequency", cutoffFrequency r)]
   ++ match normalizedFrequency r with
      | Some n => [("normalizedFrequency", n)]
      | None => []
      end
   ++ match iterations r with
      | Some n => [("iterations", INR n)]
      | None => []
      end)%list.

Definition shown_as (o : outcome) : error + object :=
  match o with
  | inl e => inl e
  | inr r => inr (object_of r)
  end.

(** The scope of a call that has reached the loop, for the loop variables
    [s]. *)
Definition frame_of (t k wm w c f : R) (s : vars) : scope :=
  [("maxIterations", 100); ("iterations", INR (count s)); ("tolerance", 1e-6);
   ("u", u s); ("high", high s); ("low", low s); ("targetMtf", t);
   ("cutoffFrequency", k); ("wavelengthMm", wm);
   ("wavelengthNm", w); ("contrastPercent", c); ("fNumber", f)].

End Store.

(** ** Comparisons *)

Section Comparisons.

Lemma leb_spec (a b : R) : reflect (a <= b) (a <=? b).
Proof. unfold Num.leb. destruct (Rle_dec a b); constructor; assumption. Qed.

Lemma ltb_spec (a b : R) : reflect (a < b) (a <? b).
Proof. unfold Num.ltb. destruct (Rlt_dec a b); constructor; assumption. Qed.

Lemma geb_spec (a b : R) : reflect (b <= a) (a >=? b).
Proof. unfold Num.geb. apply leb_spec. Qed.

Lemma gtb_spec (a b : R) : reflect (b < a) (a >? b).
Proof. unfold Num.gtb. apply ltb_spec. Qed.

End Comparisons.

(** Case analysis on every comparison the goal branches on. *)
Ltac cmp :=
  repeat match goal with
  | |- context [Num.leb ?a ?b] => destruct (leb_spec a b)
  | |- context [Num.ltb ?a ?b] => destruct (ltb_spec a b)
  | |- context [Num.geb ?a ?b] => destruct (geb_spec a b)
  | |- context [Num.gtb ?a ?b] => destruct (gtb_spec a b)
  end.

(** ** The transfer function through the angle [acos u] *)

Section TransferFunction.

Lemma angle_form_lim (x : R) :
  derivable_pt_lim angle_form x (2 * (sin x * sin x)).
Proof.
  replace (2 * (sin x * sin x))
    with (1 - (cos x * cos x + sin x * - sin x)).
  - apply (derivable_pt_lim_minus id (sin * cos)%F).
    + apply derivable_pt_lim_id.
    + apply derivable_pt_lim_mult.
      * apply derivable_pt_lim_sin.
      * apply derivable_pt_lim_cos.
  - pose proof (sin2_cos2 x) as E. unfold Rsqr in E. lra.
Qed.

Lemma angle_form_derivable (x : R) : derivable_pt angle_form x.
Proof. exists (2 * (sin x * sin x)). apply angle_form_lim. Qed.

(** Cauchy's mean value theorem for [angle_form] against [cos]. *)
Lemma angle_form_mean (a b : R) :
  a < b ->
  exists c, a < c < b /\
    (cos b - cos a) * (2 * (sin c * sin c)) =
    (angle_form b - angle_form a) * (- sin c).
Proof.
  intros Hab.
  destruct (MVT angle_form cos a b
              (fun c _ => angle_form_derivable c)
              (fun c _ => derivable_pt_cos c) Hab) as [c [P E]].
  - intros c _. apply derivable_continuous_pt, angle_form_derivable.
  - intros c _. apply derivable_continuous_pt, derivable_pt_cos.
  - exists c. split; [exact P|].
    rewrite (derive_pt_eq_0 _ _ _ _ (angle_form_lim c)) in E.
    rewrite derive_pt_cos in E. exact E.
Qed.

(** Between two angles of the first quadrant the bracket moves with the
    cosine, by at most twice as much. *)
Lemma angle_form_step (a b : R) :
  0 <= a -> a <= b -> b <= PI / 2 ->
  0 <= angle_form b - angle_form a <= 2 * (cos a - cos b).
Proof.
  intros Ha Hab Hb.
  destruct (Req_dec a b) as [->|Hne]; [lra|].
  destruct (angle_form_mean a b) as [c [[Hac Hcb] E]]; [lra|].
  assert (Hs : 0 < sin c).
  { apply sin_gt_0; [lra|]. pose proof PI_RGT_0. lra. }
  assert (Hs1 : sin c <= 1) by apply SIN_bound.
  assert (E' : angle_form b - angle_form a = 2 * sin c * (cos a - cos b)).
  { apply (Rmult_eq_reg_r (- sin c)); [|lra]. rewrite <- E. ring. }
  assert (Hcos : cos b <= cos a).
  { apply cos_decr_1; try lra; pose proof PI_RGT_0; lra. }
  rewrite E'. split; nra.
Qed.

Lemma acos_quadrant (x : R) : 0 <= x <= 1 -> 0 <= acos x <= PI / 2.
Proof.
  intros Hx. pose proof (acos_bound x) as [H0 H1]. split; [exact H0|].
  destruct (Rle_dec (acos x) (PI / 2)) as [|Hn]; [assumption|].
  exfalso. assert (Hc : cos (acos x) < 0).
  { apply cos_lt_0; [lra|]. pose proof PI_RGT_0. lra. }
  rewrite cos_acos in Hc; lra.
Qed.

Lemma acos_antitone (x y : R) : 0 <= x -> x <= y -> y <= 1 -> acos y <= acos x.
Proof.
  intros Hx Hxy Hy.
  destruct (Rle_dec (acos y) (acos x)) as [|Hn]; [assumption|].
  exfalso.
  assert (Hc : cos (acos y) < cos (acos x)).
  { apply cos_decreasing_1; try apply acos_bound. lra. }
  rewrite !cos_acos in Hc; lra.
Qed.

(** On [[0,1]] the three branches of [mtf] are one formula. *)
Lemma mtf_angle (x : R) :
  0 <= x <= 1 -> mtf x = 2 / PI * angle_form (acos x).
Proof.
  intros Hx. unfold mtf, angle_form. pose proof PI_RGT_0 as Hpi. cmp.
  - assert (x = 0) by lra. subst x.
    rewrite acos_0, cos_PI2. field. lra.
  - assert (x = 1) by lra. subst x.
    rewrite acos_1, sin_0. field. lra.
  - rewrite sin_acos, cos_acos by lra. unfold Rsqr. ring.
Qed.

(** [mtf] falls, and by at most [4 / PI] per unit. *)
Lemma mtf_slope (x y : R) :
  0 <= x -> x <= y -> y <= 1 ->
  0 <= mtf x - mtf y <= 4 / PI * (y - x).
Proof.
  intros Hx Hxy Hy. pose proof PI_RGT_0 as Hpi.
  rewrite !mtf_angle by lra.
  pose proof (acos_quadrant x ltac:(lra)) as [_ Qx].
  pose proof (acos_quadrant y ltac:(lra)) as [Qy _].
  pose proof (acos_antitone x y Hx Hxy Hy) as Hm.
  pose proof (angle_form_step (acos y) (acos x) Qy Hm Qx) as [S0 S1].
  rewrite !cos_acos in S1 by lra.
  assert (Hp : 0 < 2 / PI) by (apply Rdiv_lt_0_compat; lra).
  replace (2 / PI * angle_form (acos x) - 2 / PI * angle_form (acos y))
    with (2 / PI * (angle_form (acos x) - angle_form (acos y))) by ring.
  replace (4 / PI * (y - x)) with (2 / PI * (2 * (y - x))) by (field; lra).
  split.
  - apply Rmult_le_pos; lra.
  - apply Rmult_le_compat_l; lra.
Qed.

Lemma mtf_0 : mtf 0 = 1.
Proof. unfold mtf. cmp; lra. Qed.

Lemma mtf_1 : mtf 1 = 0.
Proof. unfold mtf. cmp; lra. Qed.

Lemma mtf_range (x : R) : 0 <= x <= 1 -> 0 <= mtf x <= 1.
Proof.
  intros [H0 H1].
  pose proof (mtf_slope 0 x (Rle_refl 0) H0 H1) as [A _].
  pose proof (mtf_slope x 1 H0 H1 (Rle_refl 1)) as [B _].
  rewrite mtf_0 in A. rewrite mtf_1 in B. lra.
Qed.

Lemma four_over_PI : 4 / PI < 2.
Proof.
  pose proof PI2_1 as Hp. pose proof PI_RGT_0 as Hpi.
  apply (Rmult_lt_reg_r PI); [lra|].
  unfold Rdiv. rewrite Rmult_assoc, Rinv_l by lra. lra.
Qed.

End TransferFunction.

(** ** Rounding to a fixed number of decimals *)

Section Rounding.

Variable digits : nat.

#[local] Notation "'scale'" := (10 ^ digits).

Lemma scale_pos : 0 < scale.
Proof. apply pow_lt. lra. Qed.

Lemma toFixed_nonneg (x : R) :
  0 <= x -> Num.toFixed x digits = IZR (Zfloor (x * scale + / 2)) / scale.
Proof.
  intros Hx. unfold Num.toFixed.
  destruct (Rlt_dec x 0); [lra|reflexivity].
Qed.

(** The rounded value is at least [k / scale] as soon as [x] reaches the
    half below [k], and at most [k / scale] while [x] stays under the half
    above it. *)
Lemma toFixed_lower (x : R) (k : Z) :
  0 <= x -> IZR k - / 2 <= x * scale -> IZR k / scale <= Num.toFixed x digits.
Proof.
  intros Hx Hk. rewrite toFixed_nonneg by assumption.
  pose proof scale_pos.
  apply Rmult_le_compat_r; [left; apply Rinv_0_lt_compat; assumption|].
  apply IZR_le, Zfloor_lub. lra.
Qed.

Lemma toFixed_upper (x : R) (k : Z) :
  0 <= x -> x * scale < IZR k + / 2 -> Num.toFixed x digits <= IZR k / scale.
Proof.
  intros Hx Hk. rewrite toFixed_nonneg by assumption.
  pose proof scale_pos.
  apply Rmult_le_compat_r; [left; apply Rinv_0_lt_compat; assumption|].
  apply IZR_le.
  pose proof (Zfloor_bound (x * scale + / 2)) as [B _].
  assert (L : IZR (Zfloor (x * scale + / 2)) < IZR (k + 1)).
  { rewrite plus_IZR. lra. }
  apply lt_IZR in L. lia.
Qed.

Lemma toFixed_exact (x : R) (k : Z) :
  0 <= x -> IZR k - / 2 <= x * scale < IZR k + / 2 ->
  Num.toFixed x digits = IZR k / scale.
Proof.
  intros Hx [A B]. apply Rle_antisym.
  - apply toFixed_upper; assumption.
  - apply toFixed_lower; assumption.
Qed.

Lemma toFixed_monotone (x y : R) :
  0 <= x -> x <= y -> Num.toFixed x digits <= Num.toFixed y digits.
Proof.
  intros Hx Hxy. rewrite !toFixed_nonneg by lra.
  pose proof scale_pos.
  apply Rmult_le_compat_r; [left; apply Rinv_0_lt_compat; assumption|].
  apply IZR_le, Zfloor_le.
  apply Rplus_le_compat_r, Rmult_le_compat_r; lra.
Qed.

(** Rounding moves a number by at most half a unit of the last decimal. *)
Lemma toFixed_near (x : R) :
  0 <= x -> x - / 2 / scale < Num.toFixed x digits <= x + / 2 / scale.
Proof.
  intros Hx. rewrite toFixed_nonneg by assumption.
  pose proof scale_pos as Hs.
  pose proof (Zfloor_bound (x * scale + / 2)) as [A B].
  set (n := IZR (Zfloor (x * scale + / 2))) in *.
  assert (Hi : 0 < / scale) by (apply Rinv_0_lt_compat; assumption).
  assert (E : x = x * scale * / scale) by (field; lra).
  split.
  - apply (Rmult_lt_reg_r scale); [assumption|].
    unfold Rdiv. rewrite Rmult_assoc, Rinv_l by lra.
    rewrite Rmult_minus_distr_r, (Rmult_assoc (/ 2)), Rinv_l by lra. lra.
  - apply (Rmult_le_reg_r scale); [assumption|].
    unfold Rdiv. rewrite Rmult_assoc, Rinv_l by lra.
    rewrite Rmult_plus_distr_r, (Rmult_assoc (/ 2)), Rinv_l by lra. lra.
Qed.

End Rounding.

(** ** The bisection loop: invariant and exit *)

Section Bisection.

Lemma half_pow_pos (n : nat) : 0 < (/ 2) ^ n.
Proof. apply pow_lt. lra. Qed.

Lemma half_pow_antitone (n m : nat) : (n <= m)%nat -> (/ 2) ^ m <= (/ 2) ^ n.
Proof.
  induction 1 as [|m _ IH]; [lra|].
  simpl. pose proof (half_pow_pos m). lra.
Qed.

Lemma half_pow_20 : (/ 2) ^ 20 = / 1048576.
Proof. simpl. lra. Qed.

Lemma half_pow_19 : (/ 2) ^ 19 = / 524288.
Proof. simpl. lra. Qed.

(** The interval is wider than the tolerance exactly during the first
    nineteen halvings. *)
Lemma width_above_tolerance (n : nat) :
  (/ 2) ^ n > tolerance <-> (n <= 19)%nat.
Proof.
  unfold tolerance. split.
  - intros Hw. destruct (le_lt_dec n 19) as [|Hn]; [assumption|exfalso].
    pose proof (half_pow_antitone 20 n Hn) as Hle.
    rewrite half_pow_20 in Hle. lra.
  - intros Hn. pose proof (half_pow_antitone n 19 Hn) as Hle.
    rewrite half_pow_19 in Hle. lra.
Qed.

Variable targetMtf : R.

Lemma bracket_init : 0 < targetMtf < 1 -> bracket targetMtf init.
Proof.
  intros [H0 H1]. constructor; simpl; try lra; try lia.
  - rewrite mtf_0. assumption.
  - rewrite mtf_1. lra.
Qed.

Lemma loop_cond_true (s : vars) :
  bracket targetMtf s -> loop_cond s = true <-> (count s <= 19)%nat.
Proof.
  intros B. unfold loop_cond. rewrite (br_width targetMtf s B).
  rewrite andb_true_iff, Nat.ltb_lt.
  destruct (gtb_spec ((/ 2) ^ count s) tolerance) as [Hw|Hw].
  - apply width_above_tolerance in Hw. unfold maxIterations. split; [tauto|].
    intros _. split; [reflexivity|lia].
  - split; [intros [A _]; discriminate|].
    intros Hn. exfalso. apply Hw. apply width_above_tolerance. assumption.
Qed.

(** The midpoint of a bracket that is still wider than the tolerance. *)
Lemma midpoint_bounds (s : vars) :
  bracket targetMtf s -> (count s <= 19)%nat ->
  let m := (low s + high s) / 2 in
  m - low s = (/ 2) ^ S (count s) /\ high s - m = (/ 2) ^ S (count s) /\
  (/ 2) ^ 20 <= m <= 1 - (/ 2) ^ 20.
Proof.
  intros B Hn m. subst m.
  pose proof (br_width targetMtf s B) as W. pose proof (br_low targetMtf s B). pose proof (br_high targetMtf s B).
  assert (Hp : (/ 2) ^ 20 <= (/ 2) ^ S (count s)) by (apply half_pow_antitone; lia).
  change ((/ 2) ^ S (count s)) with (/ 2 * (/ 2) ^ count s) in *.
  repeat split; lra.
Qed.

(** One run of the body keeps the bracket, or breaks on a value of [mtf]
    within the tolerance of the target. *)
Lemma loop_body_bracket (s : vars) :
  bracket targetMtf s -> (count s <= 19)%nat ->
  match loop_body targetMtf s with
  | Break s' => settled targetMtf s' /\ (count s' <= 19)%nat
  | Normal s' => bracket targetMtf s' /\ count s' = S (count s)
  end.
Proof.
  intros B Hn.
  destruct (midpoint_bounds s B Hn) as (Ml & Mh & Mu).
  pose proof (br_low targetMtf s B). pose proof (br_high targetMtf s B).
  unfold loop_body.
  destruct (ltb_spec (Rabs (mtf ((low s + high s) / 2) - targetMtf)) tolerance)
    as [Hb|Hb].
  - split; [|simpl; assumption].
    constructor; simpl; [lia|assumption|]. unfold tolerance in *. lra.
  - pose proof (half_pow_pos (S (count s))) as Hp.
    pose proof (half_pow_pos 20) as Hq.
    destruct (gtb_spec (mtf ((low s + high s) / 2)) targetMtf) as [Hg|Hg].
    + split; [|reflexivity].
      constructor; simpl count; simpl low; simpl high; simpl u.
      * exact Mh.
      * lra.
      * assumption.
      * lia.
      * assumption.
      * exact (br_below targetMtf s B).
      * right. split; [left; reflexivity|assumption].
    + split; [|reflexivity].
      constructor; simpl count; simpl low; simpl high; simpl u.
      * exact Ml.
      * assumption.
      * lra.
      * lia.
      * exact (br_above targetMtf s B).
      * lra.
      * right. split; [right; reflexivity|assumption].
Qed.

(** A bracket that the condition closes has its last midpoint at an end, and
    [mtf] there is within the tolerance's order of the target. *)
Lemma bracket_closed (s : vars) :
  bracket targetMtf s -> count s = 20%nat -> settled targetMtf s.
Proof.
  intros B Hn.
  pose proof (br_width targetMtf s B) as W. rewrite Hn, half_pow_20 in W.
  pose proof (br_low targetMtf s B) as L0. pose proof (br_high targetMtf s B) as H1.
  pose proof (br_above targetMtf s B) as A. pose proof (br_below targetMtf s B) as Bl.
  assert (Hlh : low s <= high s) by lra.
  pose proof (mtf_slope (low s) (high s) L0 Hlh H1) as [S0 S1].
  pose proof four_over_PI as Hpi.
  assert (S2 : mtf (low s) - mtf (high s) < 2 * tolerance).
  { apply Rle_lt_trans with (1 := S1). rewrite W. unfold tolerance.
    apply Rle_lt_trans with (2 * / 1048576); [|lra].
    apply Rmult_le_compat_r; lra. }
  destruct (br_u targetMtf s B) as [H0|[[E|E] Hu]]; [lia| |];
    (constructor; [lia|assumption|]); rewrite E; apply Rabs_def1; lra.
Qed.

Lemma while_loop_S (fuel : nat) (s : vars) :
  while_loop (S fuel) targetMtf s =
  if loop_cond s
  then match loop_body targetMtf s with
       | Break s' => s'
       | Normal s' => while_loop fuel targetMtf s'
       end
  else s.
Proof. reflexivity. Qed.

(** With enough fuel for twenty halvings the loop ends settled. *)
Lemma while_loop_settled (fuel : nat) (s : vars) :
  bracket targetMtf s -> (1 <= count s \/ 1 <= fuel)%nat -> (20 <= fuel + count s)%nat ->
  settled targetMtf (while_loop fuel targetMtf s).
Proof.
  revert s. induction fuel as [|fuel IH]; intros s B Hrun Hfuel.
  - simpl. apply bracket_closed; [assumption|]. pose proof (br_count targetMtf s B). lia.
  - simpl. destruct (loop_cond s) eqn:C.
    + apply loop_cond_true in C; [|assumption].
      pose proof (loop_body_bracket s B C) as Hb.
      destruct (loop_body targetMtf s) as [s'|s'].
      * apply Hb.
      * destruct Hb as [B' Hc]. apply IH; [assumption|lia|lia].
    + assert (Hn : ~ (count s <= 19)%nat).
      { intros Hn. apply (loop_cond_true s B) in Hn. congruence. }
      apply bracket_closed; [assumption|]. pose proof (br_count targetMtf s B). lia.
Qed.

(** The loop stops by itself: fuel beyond the twenty halvings is never used. *)
Lemma while_loop_exits (fuel : nat) (s : vars) :
  bracket targetMtf s -> (20 <= fuel + count s)%nat ->
  while_loop fuel targetMtf s = while_loop (20 - count s) targetMtf s.
Proof.
  revert s. induction fuel as [|fuel IH]; intros s B Hfuel.
  - replace (20 - count s)%nat with 0%nat by lia. reflexivity.
  - rewrite while_loop_S. destruct (loop_cond s) eqn:C.
    + pose proof C as C'. apply loop_cond_true in C'; [|assumption].
      replace (20 - count s)%nat with (S (19 - count s)) by lia.
      rewrite while_loop_S, C.
      pose proof (loop_body_bracket s B C') as Hb.
      destruct (loop_body targetMtf s) as [s'|s']; [reflexivity|].
      destruct Hb as [B' Hc]. rewrite IH by (assumption || lia).
      f_equal. lia.
    + destruct (20 - count s)%nat; [reflexivity|].
      rewrite while_loop_S, C. reflexivity.
Qed.

End Bisection.

(** ** The paths of [calculateDiffractionLimit] *)

Section Paths.

Variables fNumber contrastPercent wavelengthNm : R.

Hypothesis fNumber_pos : 0 < fNumber.
Hypothesis wavelength_pos : 0 < wavelengthNm.

Lemma cutoff_pos : 0 < 1 / (wavelengthNm * 1e-6 * fNumber).
Proof.
  apply Rdiv_lt_0_compat; [lra|].
  apply Rmult_lt_0_compat; [|assumption].
  apply Rmult_lt_0_compat; [assumption|lra].
Qed.

(** Full contrast: the first boundary return. *)
Lemma path_full :
  100 = contrastPercent ->
  calculateDiffractionLimit fNumber contrastPercent wavelengthNm =
  inr {| spatialFrequency := 0;
         cutoffFrequency := 1 / (wavelengthNm * 1e-6 * fNumber);
         normalizedFrequency := None; iterations := None |}.
Proof.
  intros <-. unfold calculateDiffractionLimit. cmp; simpl; try lra. reflexivity.
Qed.

(** No contrast: the second boundary return. *)
Lemma path_zero :
  contrastPercent = 0 ->
  calculateDiffractionLimit fNumber contrastPercent wavelengthNm =
  inr {| spatialFrequency := 1 / (wavelengthNm * 1e-6 * fNumber);
         cutoffFrequency := 1 / (wavelengthNm * 1e-6 * fNumber);
         normalizedFrequency := None; iterations := None |}.
Proof.
  intros ->. unfold calculateDiffractionLimit. cmp; simpl; try lra. reflexivity.
Qed.

(** Contrast strictly inside: the bisection and the rounded record. *)
Lemma path_bisection :
  0 < contrastPercent < 100 ->
  calculateDiffractionLimit fNumber contrastPercent wavelengthNm =
  let cutoff := 1 / (wavelengthNm * 1e-6 * fNumber) in
  let s := while_loop maxIterations (contrastPercent / 100) init in
  inr {| spatialFrequency := Num.toFixed (u s * cutoff) 1;
         cutoffFrequency := Num.toFixed cutoff 1;
         normalizedFrequency := Some (Num.toFixed (u s) 6);
         iterations := Some (count s) |}.
Proof.
  intros [H0 H1]. unfold calculateDiffractionLimit.
  cmp; simpl; try lra. reflexivity.
Qed.

(** The loop variables after the bisection of a contrast strictly inside. *)
Lemma bisection_settled :
  0 < contrastPercent < 100 ->
  settled (contrastPercent / 100)
          (while_loop maxIterations (contrastPercent / 100) init).
Proof.
  intros Hc. apply while_loop_settled.
  - apply bracket_init. lra.
  - right. unfold maxIterations. lia.
  - unfold maxIterations. simpl. lia.
Qed.

End Paths.

(** ** Validation, boundaries and the shape of the record *)

(** C5.  The function throws exactly when an input is out of its domain, and
    the checks run in a fixed order with fixed messages: a non-positive
    f-number first, then a contrast outside [[0,100]], then a non-positive
    wavelength; the first failing check decides the error, and with all three
    inputs in their domains a record is returned. *)
Theorem validation_order (fNumber contrastPercent wavelengthNm : R) :
  (fNumber <= 0 ->
   calculateDiffractionLimit fNumber contrastPercent wavelengthNm =
   inl (Error "f-number must be positive")) /\
  (0 < fNumber -> contrastPercent < 0 \/ 100 < contrastPercent ->
   calculateDiffractionLimit fNumber contrastPercent wavelengthNm =
   inl (Error "Contrast percentage must be between 0 and 100")) /\
  (0 < fNumber -> 0 <= contrastPercent <= 100 -> wavelengthNm <= 0 ->
   calculateDiffractionLimit fNumber contrastPercent wavelengthNm =
   inl (Error "Wavelength must be positive")) /\
  (0 < fNumber -> 0 <= contrastPercent <= 100 -> 0 < wavelengthNm ->
   exists r,
     calculateDiffractionLimit fNumber contrastPercent wavelengthNm = inr r).
Proof.
  unfold calculateDiffractionLimit, throw. repeat split.
  - intros Hf. cmp; simpl; try lra; reflexivity.
  - intros Hf Hc. cmp; simpl; try lra; reflexivity.
  - intros Hf Hc Hw. cmp; simpl; try lra; reflexivity.
  - intros Hf Hc Hw. cmp; simpl; try lra; eexists; reflexivity.
Qed.

(** With every input out of its domain the f-number's message is the one
    thrown. *)
Lemma validation_order_witness :
  calculateDiffractionLimit (-1) 101 0 = inl (Error "f-number must be positive").
Proof. apply (proj1 (validation_order (-1) 101 0)). lra. Defined.

(** C3.  After validation the boundaries return at once: at a contrast of 100
    or more the spatial frequency is 0 beside the computed cutoff, at a
    contrast of 0 or less it is the cutoff itself; neither record carries an
    iteration count. *)
Theorem boundary_short_circuit (fNumber contrastPercent wavelengthNm : R) :
  0 < fNumber -> 0 <= contrastPercent <= 100 -> 0 < wavelengthNm ->
  let cutoff := 1 / (wavelengthNm * 1e-6 * fNumber) in
  (100 <= contrastPercent ->
   calculateDiffractionLimit fNumber contrastPercent wavelengthNm =
   inr {| spatialFrequency := 0; cutoffFrequency := cutoff;
          normalizedFrequency := None; iterations := None |}) /\
  (contrastPercent <= 0 ->
   calculateDiffractionLimit fNumber contrastPercent wavelengthNm =
   inr {| spatialFrequency := cutoff; cutoffFrequency := cutoff;
          normalizedFrequency := None; iterations := None |}).
Proof.
  intros Hf Hc Hw cutoff. split; intros Hb.
  - apply path_full; lra.
  - apply path_zero; lra.
Qed.

Lemma boundary_short_circuit_witness :
  calculateDiffractionLimit 8 100 520 =
  inr {| spatialFrequency := 0; cutoffFrequency := 1 / (520 * 1e-6 * 8);
         normalizedFrequency := None; iterations := None |}.
Proof.
  apply (proj1 (boundary_short_circuit 8 100 520 ltac:(lra) ltac:(lra) ltac:(lra))).
  lra.
Defined.

(** C6.  For valid inputs the returned record has the fields
    [normalizedFrequency] and [iterations] if and only if the contrast is
    strictly between 0 and 100; at 0 and at 100 it has the two frequencies
    only. *)
Theorem field_presence (fNumber contrastPercent wavelengthNm : R) :
  0 < fNumber -> 0 <= contrastPercent <= 100 -> 0 < wavelengthNm ->
  exists r,
    calculateDiffractionLimit fNumber contrastPercent wavelengthNm = inr r /\
    ((exists un n, normalizedFrequency r = Some un /\ iterations r = Some n)
     <-> 0 < contrastPercent < 100) /\
    (contrastPercent = 0 \/ contrastPercent = 100 ->
     normalizedFrequency r = None /\ iterations r = None).
Proof.
  intros Hf Hc Hw.
  destruct (Req_dec contrastPercent 100) as [E100|N100];
    [|destruct (Req_dec contrastPercent 0) as [E0|N0]].
  - eexists. split; [apply path_full; auto|]. simpl. split.
    + split; [intros (un & n & A & _); discriminate|lra].
    + intros _. split; reflexivity.
  - eexists. split; [apply path_zero; auto|]. simpl. split.
    + split; [intros (un & n & A & _); discriminate|lra].
    + intros _. split; reflexivity.
  - eexists. split; [apply path_bisection; auto; lra|]. simpl. split.
    + split; [lra|]. intros _. eexists; eexists. split; reflexivity.
    + lra.
Qed.

Lemma field_presence_witness :
  exists r,
    calculateDiffractionLimit 8 10 520 = inr r /\
    ((exists un n, normalizedFrequency r = Some un /\ iterations r = Some n)
     <-> 0 < 10 < 100) /\
    (10 = 0 \/ 10 = 100 ->
     normalizedFrequency r = None /\ iterations r = None).
Proof. apply (field_presence 8 10 520); lra. Defined.

(** ** The transfer function and the convergence of the bisection *)




(** The normalised frequency as the record shows it: six decimals of a value
    that the loop left between [2^-20] and [1 - 2^-20]. *)
Lemma shown_frequency (x : R) :
  (/ 2) ^ 20 <= x <= 1 - (/ 2) ^ 20 ->
  1 / 1000000 <= Num.toFixed x 6 <= 999999 / 1000000 /\
  - (5 / 10000000) <= Num.toFixed x 6 - x <= 5 / 10000000.
Proof.
  rewrite half_pow_20. intros [A B].
  assert (Hx : 0 <= x) by lra.
  assert (S6 : 10 ^ 6 = 1000000) by (simpl; lra).
  pose proof (toFixed_lower 6 x 1 Hx) as L.
  pose proof (toFixed_upper 6 x 999999 Hx) as U.
  pose proof (toFixed_near 6 x Hx) as [N1 N2].
  rewrite S6 in *.
  split; [split|].
  - apply L. lra.
  - apply U. lra.
  - lra.
Qed.

(** C1.  For valid inputs with the contrast strictly between 0 and 100 the
    record's [normalizedFrequency] lies in [(0,1)], the closed-form transfer
    function there is within [1e-3] of [contrastPercent / 100], and the
    [iterations] count is at most 100. *)
Theorem convergence (fNumber contrastPercent wavelengthNm : R) :
  0 < fNumber -> 0 < contrastPercent < 100 -> 0 < wavelengthNm ->
  exists r un n,
    calculateDiffractionLimit fNumber contrastPercent wavelengthNm = inr r /\
    normalizedFrequency r = Some un /\ iterations r = Some n /\
    0 < un < 1 /\
    Rabs (2 / PI * (acos un - un * sqrt (1 - un * un)) - contrastPercent / 100)
      < 1e-3 /\
    (n <= 100)%nat.
Proof.
  intros Hf Hc Hw.
  pose proof (bisection_settled contrastPercent Hc) as [Sn Su Sm].
  set (s := while_loop maxIterations (contrastPercent / 100) init) in *.
  destruct (shown_frequency (u s) Su) as [[R0 R1] Rd].
  exists {| spatialFrequency :=
              Num.toFixed (u s * (1 / (wavelengthNm * 1e-6 * fNumber))) 1;
            cutoffFrequency :=
              Num.toFixed (1 / (wavelengthNm * 1e-6 * fNumber)) 1;
            normalizedFrequency := Some (Num.toFixed (u s) 6);
            iterations := Some (count s) |}, (Num.toFixed (u s) 6), (count s).
  split; [apply path_bisection; assumption|]. simpl.
  split; [reflexivity|]. split; [reflexivity|].
  split; [lra|]. split; [|lia].
  set (un := Num.toFixed (u s) 6) in *.
  assert (E : mtf un = 2 / PI * (acos un - un * sqrt (1 - un * un))).
  { unfold mtf. cmp; lra. }
  rewrite <- E.
  rewrite half_pow_20 in Su.
  pose proof PI_RGT_0 as Hpi. pose proof four_over_PI as Hpi2.
  assert (Hq : 0 < 4 / PI) by (apply Rdiv_lt_0_compat; lra).
  destruct Rd as [Rd1 Rd2].
  apply Rabs_def2 in Sm. destruct Sm as [Sm1 Sm2]. unfold tolerance in *.
  assert (D : - (1 / 1000000) < mtf un - mtf (u s) < 1 / 1000000).
  { destruct (Rle_dec un (u s)) as [Hle|Hgt].
    - pose proof (mtf_slope un (u s) ltac:(lra) Hle ltac:(lra)) as [A B].
      assert (4 / PI * (u s - un) <= 4 / PI * (5 / 10000000))
        by (apply Rmult_le_compat_l; lra).
      assert (4 / PI * (5 / 10000000) < 2 * (5 / 10000000))
        by (apply Rmult_lt_compat_r; lra).
      lra.
    - pose proof (mtf_slope (u s) un ltac:(lra) ltac:(lra) ltac:(lra)) as [A B].
      assert (4 / PI * (un - u s) <= 4 / PI * (5 / 10000000))
        by (apply Rmult_le_compat_l; lra).
      assert (4 / PI * (5 / 10000000) < 2 * (5 / 10000000))
        by (apply Rmult_lt_compat_r; lra).
      lra. }
  apply Rabs_def1; lra.
Qed.

Lemma convergence_witness :
  exists r un n,
    calculateDiffractionLimit 8 10 520 = inr r /\
    normalizedFrequency r = Some un /\ iterations r = Some n /\
    0 < un < 1 /\
    Rabs (2 / PI * (acos un - un * sqrt (1 - un * un)) - 10 / 100) < 1e-3 /\
    (n <= 100)%nat.
Proof. apply (convergence 8 10 520); lra. Defined.

(** ** Bounds on the record and on the number of iterations *)

(** C9.  For valid inputs the returned spatial frequency never exceeds the
    returned cutoff frequency; on the bisection path the solved frequency
    [u] is strictly inside [(0,1)], so [u * cutoff] is below the cutoff
    before the two are rounded. *)
Theorem spatial_below_cutoff (fNumber contrastPercent wavelengthNm : R) :
  0 < fNumber -> 0 <= contrastPercent <= 100 -> 0 < wavelengthNm ->
  (exists r,
     calculateDiffractionLimit fNumber contrastPercent wavelengthNm = inr r /\
     spatialFrequency r <= cutoffFrequency r) /\
  (0 < contrastPercent < 100 ->
   let cutoff := 1 / (wavelengthNm * 1e-6 * fNumber) in
   let s := while_loop maxIterations (contrastPercent / 100) init in
   0 < u s < 1 /\ u s * cutoff < cutoff).
Proof.
  intros Hf Hc Hw.
  pose proof (cutoff_pos fNumber wavelengthNm Hf Hw) as Hk.
  assert (Hin : 0 < contrastPercent < 100 ->
    0 < u (while_loop maxIterations (contrastPercent / 100) init) < 1).
  { intros Hc'. destruct (bisection_settled contrastPercent Hc') as [_ Su _].
    rewrite half_pow_20 in Su. lra. }
  split.
  - destruct (Req_dec contrastPercent 100) as [E100|N100];
      [|destruct (Req_dec contrastPercent 0) as [E0|N0]].
    + eexists. split; [apply path_full; auto|]. simpl. lra.
    + eexists. split; [apply path_zero; auto|]. simpl. lra.
    + assert (Hc' : 0 < contrastPercent < 100) by lra.
      specialize (Hin Hc').
      eexists. split; [apply path_bisection; auto|].
      cbn [spatialFrequency cutoffFrequency].
      set (k := 1 / (wavelengthNm * 1e-6 * fNumber)) in *.
      destruct Hin as [U0 U1].
      apply toFixed_monotone; [apply Rmult_le_pos; lra|].
      rewrite <- (Rmult_1_l k) at 2. apply Rmult_le_compat_r; lra.
  - intros Hc' cutoff s. specialize (Hin Hc'). fold s in Hin.
    split; [assumption|]. fold cutoff in Hk. nra.
Qed.

Lemma spatial_below_cutoff_witness :
  exists r,
    calculateDiffractionLimit 8 10 520 = inr r /\
    spatialFrequency r <= cutoffFrequency r.
Proof.
  apply (spatial_below_cutoff 8 10 520 ltac:(lra) ltac:(lra) ltac:(lra)).
Defined.

(** C10.  For a contrast strictly between 0 and 100 the loop stops well
    before the cap: the interval starts at width 1 and every run of the body
    that does not break halves it and counts one iteration, so twenty runs of
    the body are all the loop ever makes, and the returned [iterations] is at
    most 20, below [maxIterations = 100]. *)
Theorem bisection_halvings (fNumber contrastPercent wavelengthNm : R) :
  0 < fNumber -> 0 < contrastPercent < 100 -> 0 < wavelengthNm ->
  (exists r n,
     calculateDiffractionLimit fNumber contrastPercent wavelengthNm = inr r /\
     iterations r = Some n /\ (n <= 20)%nat /\ (n < maxIterations)%nat) /\
  (forall fuel, (20 <= fuel)%nat ->
     while_loop fuel (contrastPercent / 100) init =
     while_loop 20 (contrastPercent / 100) init) /\
  high init - low init = 1 /\
  (forall s s', loop_body (contrastPercent / 100) s = Normal s' ->
     high s' - low s' = (high s - low s) / 2 /\ count s' = S (count s)).
Proof.
  intros Hf Hc Hw. split; [|split; [|split]].
  - destruct (bisection_settled contrastPercent Hc) as [Sn _ _].
    eexists; eexists. split; [apply path_bisection; auto|].
    cbn [iterations]. split; [reflexivity|]. split; [exact Sn|].
    apply Nat.le_lt_trans with 20%nat; [exact Sn|]. unfold maxIterations. lia.
  - intros fuel Hfuel.
    apply (while_loop_exits (contrastPercent / 100) fuel init).
    + apply bracket_init. lra.
    + simpl. lia.
  - simpl. lra.
  - intros s s'. unfold loop_body. cmp; intros E; inversion E; simpl;
      split; try reflexivity; lra.
Qed.

Lemma bisection_halvings_witness :
  exists r n,
    calculateDiffractionLimit 8 10 520 = inr r /\
    iterations r = Some n /\ (n <= 20)%nat /\ (n < maxIterations)%nat.
Proof.
  apply (bisection_halvings 8 10 520 ltac:(lra) ltac:(lra) ltac:(lra)).
Defined.

(** ** The boundary returns and the rounding *)

Section BoundaryRounding.

(** The cutoff frequency of an f/8 lens at 520 nm, 240.38... cycles/mm. *)
Lemma cutoff_f8_520 : 1 / (520 * 1e-6 * 8) = 3125 / 13.
Proof. lra. Qed.

Lemma cutoff_f8_520_rounded : Num.toFixed (3125 / 13) 1 = 2404 / 10.
Proof.
  replace (2404 / 10) with (IZR 2404 / 10 ^ 1) by (simpl; lra).
  apply toFixed_exact; simpl; lra.
Qed.

(** Inside the contrast range the cutoff field is the rounded cutoff. *)
Lemma cutoff_rounded_inside (fNumber contrastPercent wavelengthNm : R) :
  0 < fNumber -> 0 < contrastPercent < 100 -> 0 < wavelengthNm ->
  exists r,
    calculateDiffractionLimit fNumber contrastPercent wavelengthNm = inr r /\
    cutoffFrequency r = Num.toFixed (1 / (wavelengthNm * 1e-6 * fNumber)) 1.
Proof.
  intros Hf Hc Hw. eexists. split; [apply path_bisection; auto|]. reflexivity.
Qed.

End BoundaryRounding.

(** C2.  At full contrast the cutoff field is not the cutoff rounded to one
    decimal: for f/8 at 520 nm the record carries [3125 / 13] (240.38...),
    while the rounded cutoff is 240.4.  The boundary returns hand the
    computed cutoff over as it is; only the last return rounds it. *)
Theorem cutoff_unrounded_at_boundary :
  exists r,
    calculateDiffractionLimit 8 100 520 = inr r /\
    cutoffFrequency r = 3125 / 13 /\
    Num.toFixed (1 / (520 * 1e-6 * 8)) 1 = 2404 / 10 /\
    cutoffFrequency r <> Num.toFixed (1 / (520 * 1e-6 * 8)) 1.
Proof.
  eexists. split; [apply path_full; lra|]. cbn [cutoffFrequency].
  rewrite cutoff_f8_520, cutoff_f8_520_rounded. repeat split; lra.
Qed.

(** ** The bisection of a contrast close to zero *)

Section NearCutoff.

Lemma sin_below (x : R) : 0 <= x -> sin x <= x.
Proof.
  intros [Hx|<-]; [left; apply sin_lt_x; assumption|rewrite sin_0; lra].
Qed.

Lemma cos_above (x : R) : 0 <= x <= PI -> 1 - x * x / 2 <= cos x.
Proof.
  intros [H0 H1].
  pose proof (cos_2a_sin (x / 2)) as E.
  replace (2 * (x / 2)) with x in E by field. rewrite E.
  pose proof (sin_below (x / 2) ltac:(lra)) as Hs.
  pose proof (sin_ge_0 (x / 2) ltac:(lra) ltac:(lra)) as Hp.
  nra.
Qed.

Lemma PI_below : PI <= 52 / 15.
Proof.
  pose proof (PI_ineq 1) as [_ Hu].
  unfold tg_alt, PI_tg in Hu. simpl in Hu. lra.
Qed.

(** A lower bound of [mtf] close to the cutoff, from [sin x <= x] and
    [1 - x^2 / 2 <= cos x] at the angle [x = acos v]. *)
Lemma mtf_near_cutoff (v d : R) :
  0 <= v < 1 -> 0 < d -> d * d <= 2 * (1 - v) ->
  2 / PI * (d * (1 - v)) <= mtf v.
Proof.
  intros [V0 V1] Hd Hdv.
  rewrite mtf_angle by lra. unfold angle_form.
  pose proof (acos_quadrant v ltac:(lra)) as [Q0 Q1].
  pose proof PI_RGT_0 as Hpi.
  pose proof (cos_above (acos v) ltac:(lra)) as Hc.
  pose proof (sin_below (acos v) Q0) as Hs.
  pose proof (sin_ge_0 (acos v) Q0 ltac:(lra)) as Hp.
  rewrite cos_acos in * by lra.
  set (x := acos v) in *.
  assert (Hx : d <= x) by nra.
  apply Rmult_le_compat_l; [left; apply Rdiv_lt_0_compat; lra|].
  nra.
Qed.

Lemma mtf_at_8191 : 11 / 10000000 <= mtf (1 - (/ 2) ^ 13).
Proof.
  assert (E : (/ 2) ^ 13 = / 8192) by (simpl; lra). rewrite E.
  pose proof (mtf_near_cutoff (1 - / 8192) (/ 64)
                ltac:(lra) ltac:(lra) ltac:(lra)) as Hm.
  apply Rle_trans with (2 := Hm).
  pose proof PI_below as Hu. pose proof PI_RGT_0 as Hpi.
  replace (2 / PI * (/ 64 * (1 - (1 - / 8192)))) with (/ 262144 / PI)
    by (field; lra).
  apply (Rmult_le_reg_r PI); [assumption|].
  unfold Rdiv at 2. rewrite Rmult_assoc, Rinv_l by lra. lra.
Qed.

Variable targetMtf : R.
Variable floor_u : R.

Hypothesis floor_u_range : 0 <= floor_u <= 1.
Hypothesis floor_u_clear : targetMtf + tolerance <= mtf floor_u.

(** While the midpoint is not beyond [floor_u] the body moves [low] up. *)
Lemma loop_body_up (s : vars) :
  0 <= low s -> low s <= high s -> (low s + high s) / 2 <= floor_u ->
  loop_body targetMtf s =
  Normal {| low := (low s + high s) / 2; high := high s;
            u := (low s + high s) / 2; count := S (count s) |}.
Proof.
  intros L0 Lh Hm.
  pose proof (mtf_slope ((low s + high s) / 2) floor_u
                ltac:(lra) Hm ltac:(lra)) as [A _].
  unfold loop_body, tolerance in *.
  destruct (ltb_spec (Rabs (mtf ((low s + high s) / 2) - targetMtf))
              (1e-6)) as [Hb|Hb].
  - apply Rabs_def2 in Hb. lra.
  - destruct (gtb_spec (mtf ((low s + high s) / 2)) targetMtf) as [Hg|Hg];
      [reflexivity|lra].
Qed.

Lemma climbed_bounds (n : nat) :
  low (climbed n) = 1 - (/ 2) ^ n /\ high (climbed n) = 1 /\
  count (climbed n) = n.
Proof. destruct n; simpl; repeat split; lra. Qed.

Lemma climb (n fuel : nat) :
  (n <= 19)%nat -> 1 - (/ 2) ^ S n <= floor_u ->
  while_loop (S fuel) targetMtf (climbed n) =
  while_loop fuel targetMtf (climbed (S n)).
Proof.
  intros Hn Hu.
  destruct (climbed_bounds n) as (El & Eh & Ec).
  pose proof (half_pow_pos n) as Hp.
  pose proof (half_pow_antitone 0 n ltac:(lia)) as Hp1. simpl in Hp1.
  assert (Em : (low (climbed n) + high (climbed n)) / 2 = 1 - (/ 2) ^ S n).
  { rewrite El, Eh. simpl. lra. }
  rewrite while_loop_S.
  assert (C : loop_cond (climbed n) = true).
  { unfold loop_cond. rewrite El, Eh, Ec. apply andb_true_iff. split.
    - destruct (gtb_spec (1 - (1 - (/ 2) ^ n)) tolerance) as [|Hw];
        [reflexivity|exfalso]. apply Hw.
      replace (1 - (1 - (/ 2) ^ n)) with ((/ 2) ^ n) by ring.
      apply width_above_tolerance. assumption.
    - apply Nat.ltb_lt. unfold maxIterations. lia. }
  rewrite C, loop_body_up; [|rewrite El; lra|rewrite El, Eh; lra|rewrite Em; assumption].
  rewrite Em, Eh, Ec. reflexivity.
Qed.

Lemma climb_many (n fuel : nat) :
  (n <= 20)%nat -> 1 - (/ 2) ^ n <= floor_u ->
  while_loop (n + fuel) targetMtf init = while_loop fuel targetMtf (climbed n).
Proof.
  revert fuel. induction n as [|n IH]; intros fuel Hn Hu; [reflexivity|].
  replace (S n + fuel)%nat with (n + S fuel)%nat by lia.
  rewrite IH; [apply climb; [lia|assumption]|lia|].
  pose proof (half_pow_antitone n (S n) ltac:(lia)). lra.
Qed.

(** After the loop [u] is not below any [low] the loop went through. *)
Lemma while_loop_above_low (fuel : nat) (s : vars) :
  low s <= high s -> low s <= u s ->
  low s <= u (while_loop fuel targetMtf s).
Proof.
  revert s. induction fuel as [|fuel IH]; intros s Lh Lu; [assumption|].
  rewrite while_loop_S. destruct (loop_cond s); [|assumption].
  unfold loop_body. cmp; simpl; try lra.
  - apply Rle_trans with ((low s + high s) / 2); [lra|].
    apply (IH {| low := (low s + high s) / 2; high := high s;
                 u := (low s + high s) / 2; count := S (count s) |});
      simpl; lra.
  - apply (IH {| low := low s; high := (low s + high s) / 2;
                 u := (low s + high s) / 2; count := S (count s) |});
      simpl; lra.
Qed.

End NearCutoff.

(** ** Two contrasts through the same loop *)

Section TwoTargets.

(** The three ways through the body, by where [mtf] of the midpoint lies
    against the target. *)
Lemma loop_body_cases (t : R) (s : vars) :
  let m := (low s + high s) / 2 in
  (tolerance <= mtf m - t /\
   loop_body t s =
   Normal {| low := m; high := high s; u := m; count := S (count s) |}) \/
  (- tolerance < mtf m - t < tolerance /\
   loop_body t s =
   Break {| low := low s; high := high s; u := m; count := count s |}) \/
  (mtf m - t <= - tolerance /\
   loop_body t s =
   Normal {| low := low s; high := m; u := m; count := S (count s) |}).
Proof.
  intros m. unfold loop_body. fold m.
  destruct (ltb_spec (Rabs (mtf m - t)) tolerance) as [Hb|Hb].
  - right; left. apply Rabs_def2 in Hb. split; [lra|reflexivity].
  - assert (Hout : tolerance <= mtf m - t \/ mtf m - t <= - tolerance).
    { destruct (Rle_dec tolerance (mtf m - t)) as [|Hn]; [left; assumption|].
      right. destruct (Rle_dec (mtf m - t) (- tolerance)) as [|Hn'];
        [assumption|]. exfalso. apply Hb. apply Rabs_def1; lra. }
    unfold tolerance in *.
    destruct (gtb_spec (mtf m) t) as [Hg|Hg].
    + left. split; [lra|reflexivity].
    + right; right. split; [lra|reflexivity].
Qed.

Lemma while_loop_below_high (t : R) (fuel : nat) (s : vars) :
  low s <= high s -> u s <= high s ->
  u (while_loop fuel t s) <= high s.
Proof.
  revert s. induction fuel as [|fuel IH]; intros s Lh Uh; [assumption|].
  rewrite while_loop_S. destruct (loop_cond s); [|assumption].
  unfold loop_body. cmp; simpl; try lra.
  - apply (IH {| low := (low s + high s) / 2; high := high s;
                 u := (low s + high s) / 2; count := S (count s) |});
      simpl; lra.
  - apply Rle_trans with ((low s + high s) / 2); [|lra].
    apply (IH {| low := low s; high := (low s + high s) / 2;
                 u := (low s + high s) / 2; count := S (count s) |});
      simpl; lra.
Qed.

Variables t1 t2 : R.

Hypothesis targets_ordered : t1 <= t2.

(** From the same state the larger target ends at the smaller [u]. *)
Lemma while_loop_antitone (fuel : nat) (s : vars) :
  low s <= high s ->
  u (while_loop fuel t2 s) <= u (while_loop fuel t1 s).
Proof.
  revert s. induction fuel as [|fuel IH]; intros s Lh; [simpl; lra|].
  rewrite !while_loop_S. destruct (loop_cond s); [|lra].
  set (m := (low s + high s) / 2).
  assert (Lm : low s <= m) by (unfold m; lra).
  assert (Mh : m <= high s) by (unfold m; lra).
  destruct (loop_body_cases t1 s) as [[A1 E1]|[[A1 E1]|[A1 E1]]];
    destruct (loop_body_cases t2 s) as [[A2 E2]|[[A2 E2]|[A2 E2]]];
    fold m in A1, A2, E1, E2; rewrite E1, E2;
    try (exfalso; unfold tolerance in *; lra).
  - apply IH. simpl. lra.
  - apply (while_loop_above_low t1 fuel
             {| low := m; high := high s; u := m; count := S (count s) |});
      simpl; lra.
  - apply Rle_trans with m.
    + apply (while_loop_below_high t2 fuel
               {| low := low s; high := m; u := m; count := S (count s) |});
        simpl; lra.
    + apply (while_loop_above_low t1 fuel
               {| low := m; high := high s; u := m; count := S (count s) |});
        simpl; lra.
  - simpl. lra.
  - apply (while_loop_below_high t2 fuel
             {| low := low s; high := m; u := m; count := S (count s) |});
      simpl; lra.
  - apply IH. simpl. lra.
Qed.

End TwoTargets.

(** Away from a contrast of 0 the spatial frequency is non-increasing in the
    contrast. *)
Lemma spatial_monotone_off_zero (fNumber wavelengthNm c1 c2 : R) :
  0 < fNumber -> 0 < wavelengthNm -> 0 < c1 -> c1 <= c2 -> c2 <= 100 ->
  exists r1 r2,
    calculateDiffractionLimit fNumber c1 wavelengthNm = inr r1 /\
    calculateDiffractionLimit fNumber c2 wavelengthNm = inr r2 /\
    spatialFrequency r2 <= spatialFrequency r1.
Proof.
  intros Hf Hw H1 H12 H2.
  pose proof (cutoff_pos fNumber wavelengthNm Hf Hw) as Hk.
  set (k := 1 / (wavelengthNm * 1e-6 * fNumber)) in *.
  assert (Hpos : forall c, 0 < c < 100 ->
            0 <= u (while_loop maxIterations (c / 100) init) * k).
  { intros c Hc. destruct (bisection_settled c Hc) as [_ Su _].
    rewrite half_pow_20 in Su. apply Rmult_le_pos; lra. }
  destruct (Req_dec c2 100) as [E2|N2]; [destruct (Req_dec c1 100) as [E1|N1]|].
  - do 2 eexists. split; [apply path_full; auto|].
    split; [apply path_full; auto|]. simpl. lra.
  - do 2 eexists. split; [apply path_bisection; auto; lra|].
    split; [apply path_full; auto|]. cbn [spatialFrequency]. fold k.
    replace 0 with (IZR 0 / 10 ^ 1) by (simpl; lra).
    apply toFixed_lower; [apply Hpos; lra|].
    specialize (Hpos c1 ltac:(lra)).
    set (x := u (while_loop maxIterations (c1 / 100) init) * k) in *.
    simpl. lra.
  - do 2 eexists. split; [apply path_bisection; auto; lra|].
    split; [apply path_bisection; auto; lra|]. cbn [spatialFrequency]. fold k.
    apply toFixed_monotone; [apply Hpos; lra|].
    apply Rmult_le_compat_r; [lra|].
    apply while_loop_antitone; [|simpl; lra].
    apply Rmult_le_compat_r; lra.
Qed.

(** C7.  The spatial frequency is not non-increasing in the contrast from 0
    on: for f/8 at 520 nm a contrast of 0 returns the cutoff as computed,
    [3125 / 13] (240.38...), while the contrast [1e-6] returns a rounded
    240.4 or more.  The bisection moves [low] up thirteen times, so [u] ends
    at [1 - 2^-13] or above and [u * cutoff] rounds to at least 240.4. *)
Theorem spatial_frequency_rises_off_zero_contrast :
  exists r0 r1,
    calculateDiffractionLimit 8 0 520 = inr r0 /\
    calculateDiffractionLimit 8 1e-6 520 = inr r1 /\
    0 <= 1e-6 <= 100 /\
    spatialFrequency r0 = 3125 / 13 /\
    2404 / 10 <= spatialFrequency r1 /\
    spatialFrequency r0 < spatialFrequency r1.
Proof.
  assert (Hr : 0 <= 1 - (/ 2) ^ 13 <= 1) by (simpl; lra).
  assert (Hclear : 1e-6 / 100 + tolerance <= mtf (1 - (/ 2) ^ 13)).
  { pose proof mtf_at_8191. unfold tolerance. lra. }
  pose (s := while_loop maxIterations (1e-6 / 100) init).
  assert (Hu : 1 - (/ 2) ^ 13 <= u s).
  { unfold s. change maxIterations with (13 + 87)%nat.
    rewrite (climb_many (1e-6 / 100) (1 - (/ 2) ^ 13) Hr Hclear 13 87)
      by (lia || lra).
    apply (while_loop_above_low (1e-6 / 100) 87 (climbed 13)); simpl; lra. }
  assert (Hu1 : u s < 1).
  { destruct (bisection_settled (1e-6) ltac:(lra)) as [_ Su _].
    fold s in Su. rewrite half_pow_20 in Su. lra. }
  do 2 eexists. split; [apply path_zero; lra|].
  split; [apply path_bisection; lra|].
  cbn [spatialFrequency]. fold s. rewrite cutoff_f8_520.
  assert (E : (/ 2) ^ 13 = / 8192) by (simpl; lra). rewrite E in Hu.
  assert (Hs : 2404 / 10 <= Num.toFixed (u s * (3125 / 13)) 1).
  { replace (2404 / 10) with (IZR 2404 / 10 ^ 1) by (simpl; lra).
    apply toFixed_lower; simpl; lra. }
  repeat split; lra.
Qed.

(** ** Calls in sequence *)

Section Scopes.

Lemma INR_ltb_100 (n : nat) : (INR n <? 100) = (n <? maxIterations)%nat.
Proof.
  unfold maxIterations.
  destruct (ltb_spec (INR n) 100) as [H|H]; symmetry.
  - apply Nat.ltb_lt. apply INR_lt. replace (INR 100) with 100 by (simpl; lra).
    exact H.
  - apply Nat.ltb_ge. apply INR_le. replace (INR 100) with 100 by (simpl; lra).
    lra.
Qed.

Variable g : Store.scope.

(** The loop over the scopes does to the call's scope what [while_loop] does
    to the loop variables, and leaves the top level alone. *)
Lemma loop_refines (t k wm w c f : R) (fuel : nat) (s : vars) :
  Store.loop fuel
    {| Store.locals := Store.frame_of t k wm w c f s; Store.globals := g |} =
  Some (tt, {| Store.locals :=
                 Store.frame_of t k wm w c f (while_loop fuel t s);
               Store.globals := g |}).
Proof.
  revert s. induction fuel as [|fuel IH]; intros s; [reflexivity|].
  rewrite while_loop_S.
  cbn [Store.loop]. unfold Store.bind at 1. cbn.
  rewrite INR_ltb_100.
  change (1 / 1000000) with tolerance.
  change ((high s - low s >? tolerance) && (count s <? maxIterations)%nat)
    with (loop_cond s).
  destruct (loop_cond s); [|reflexivity].
  unfold loop_body. cbn.
  change (1 / 1000000) with tolerance.
  destruct (Rabs (mtf ((low s + high s) / 2) - t) <? tolerance);
    [reflexivity|].
  cbn.
  destruct (mtf ((low s + high s) / 2) >? t); cbn;
    rewrite <- S_INR; apply (IH (mkVars _ _ _ _)).
Qed.

(** A call over the scopes returns what the exact-arithmetic function
    returns, and the top level it was made from. *)
Lemma call_refines (fNumber contrastPercent wavelengthNm : R) :
  Store.call g fNumber contrastPercent wavelengthNm =
  Some (Store.shown_as
          (calculateDiffractionLimit fNumber contrastPercent wavelengthNm), g).
Proof.
  unfold Store.call, Store.body, calculateDiffractionLimit, throw.
  unfold Store.bind at 1. cbn -[Store.loop while_loop].
  destruct (fNumber <=? 0); [reflexivity|].
  unfold Store.bind at 1. cbn -[Store.loop while_loop].
  destruct ((contrastPercent <? 0) || (contrastPercent >? 100));
    [reflexivity|].
  unfold Store.bind at 1. cbn -[Store.loop while_loop].
  destruct (wavelengthNm <=? 0); [reflexivity|].
  cbn -[Store.loop while_loop].
  destruct (contrastPercent >=? 100); [reflexivity|].
  cbn -[Store.loop while_loop].
  destruct (contrastPercent <=? 0); [reflexivity|].
  cbn -[Store.loop while_loop].
  unfold Store.bind at 1.
  pose proof (loop_refines (contrastPercent / 100)
                (1 / (wavelengthNm * 1e-6 * fNumber)) (wavelengthNm * 1e-6)
                wavelengthNm contrastPercent fNumber maxIterations init) as L.
  unfold Store.frame_of in L. cbn -[Store.loop while_loop] in L.
  rewrite L. reflexivity.
Qed.

End Scopes.

Lemma calls_refine (g : Store.scope) (l : list (R * R * R)) :
  Store.calls g l =
  Some (map (fun a => let '(f, c, w) := a in
                      Store.shown_as (calculateDiffractionLimit f c w)) l, g).
Proof.
  induction l as [|[[f c] w] l IH]; [reflexivity|].
  cbn [Store.calls map]. rewrite call_refines, IH. reflexivity.
Qed.

(** C8.  The function is deterministic and keeps no state.  Run statement by
    statement over its scopes, from any top level of the script and among
    any other calls, a call never fails on a name, gives the outcome that its
    three arguments alone decide, record or error, the same in two runs, and
    the calls leave every binding of the top level as it was: apart from the
    built-ins, each name the body reads or writes is a parameter or a
    variable the body declared. *)
Theorem deterministic_stateless
    (g1 g2 : Store.scope) (before1 after1 before2 after2 : list (R * R * R))
    (fNumber contrastPercent wavelengthNm : R) :
  let a := (fNumber, contrastPercent, wavelengthNm) in
  exists outs1 outs2,
    Store.calls g1 (before1 ++ a :: after1) = Some (outs1, g1) /\
    Store.calls g2 (before2 ++ a :: after2) = Some (outs2, g2) /\
    nth_error outs1 (length before1) =
      Some (Store.shown_as
              (calculateDiffractionLimit fNumber contrastPercent wavelengthNm)) /\
    nth_error outs2 (length before2) = nth_error outs1 (length before1).
Proof.
  intros a.
  assert (Hn : forall before after,
    nth_error
      (map (fun a => let '(f, c, w) := a in
                     Store.shown_as (calculateDiffractionLimit f c w))
           (before ++ a :: after)) (length before) =
    Some (Store.shown_as
            (calculateDiffractionLimit fNumber contrastPercent wavelengthNm))).
  { intros before after.
    rewrite map_app, nth_error_app2 by (rewrite length_map; lia).
    rewrite length_map, Nat.sub_diag. reflexivity. }
  do 2 eexists. split; [apply calls_refine|]. split; [apply calls_refine|].
  split; [apply Hn|]. rewrite !Hn. reflexivity.
Qed.

(** ** More on the transfer function *)

Section TransferFunctionShape.

(** Outside [[0,1]] [mtf] is its value at the nearer end. *)
Lemma mtf_clamp (v : R) : mtf v = mtf (Rmax 0 (Rmin 1 v)).
Proof.
  destruct (Rle_dec v 0) as [H0|H0].
  - rewrite Rmin_right, Rmax_left by lra.
    rewrite mtf_0. unfold mtf. cmp; lra.
  - destruct (Rle_dec 1 v) as [H1|H1].
    + rewrite Rmin_left, Rmax_right by lra.
      rewrite mtf_1. unfold mtf. cmp; lra.
    + rewrite Rmin_right, Rmax_right by lra. reflexivity.
Qed.

Lemma clamp_range (v : R) : 0 <= Rmax 0 (Rmin 1 v) <= 1.
Proof.
  split; [apply Rmax_l|].
  apply Rmax_lub; [lra|apply Rmin_l].
Qed.

End TransferFunctionShape.

(** X1.  Whatever its argument, [mtf] returns a contrast between 0 and 1. *)
Theorem mtf_unit_interval (v : R) : 0 <= mtf v <= 1.
Proof. rewrite mtf_clamp. apply mtf_range, clamp_range. Qed.

(** ** More on the returned record *)

Section LoopEnd.

Variable targetMtf : R.

(** The two ways the loop ends: at the [break], with [mtf] within the
    tolerance of the target, or with the bracket closed after the twentieth
    halving. *)
Lemma while_loop_ends (fuel : nat) (s : vars) :
  bracket targetMtf s -> (20 <= fuel + count s)%nat ->
  let r := while_loop fuel targetMtf s in
  ((count r <= 19)%nat /\ Rabs (mtf (u r) - targetMtf) < tolerance) \/
  (count r = 20%nat /\ bracket targetMtf r).
Proof.
  revert s. induction fuel as [|fuel IH]; intros s B Hfuel r; subst r.
  - right. simpl. split; [|assumption]. pose proof (br_count _ s B). lia.
  - rewrite while_loop_S. destruct (loop_cond s) eqn:C.
    + apply (loop_cond_true targetMtf s B) in C.
      pose proof (loop_body_bracket targetMtf s B C) as Hb.
      destruct (loop_body_cases targetMtf s) as [[A E]|[[A E]|[A E]]];
        rewrite E in *.
      * destruct Hb as [B' Hc]. apply IH; [assumption|simpl; lia].
      * left. simpl. split; [assumption|]. apply Rabs_def1; lra.
      * destruct Hb as [B' Hc]. apply IH; [assumption|simpl; lia].
    + right. split; [|assumption].
      assert (Hn : ~ (count s <= 19)%nat).
      { intros Hn. apply (loop_cond_true targetMtf s B) in Hn. congruence. }
      pose proof (br_count _ s B). lia.
Qed.

End LoopEnd.

(** X4.  Away from a contrast of 0 the record never rises with the contrast:
    for [0 < c1 <= c2 <= 100] the spatial frequency of [c2] is at most that
    of [c1], and so is the normalised frequency when both records have it. *)
Theorem frequencies_non_increasing (fNumber wavelengthNm c1 c2 : R) :
  0 < fNumber -> 0 < wavelengthNm -> 0 < c1 -> c1 <= c2 -> c2 <= 100 ->
  exists r1 r2,
    calculateDiffractionLimit fNumber c1 wavelengthNm = inr r1 /\
    calculateDiffractionLimit fNumber c2 wavelengthNm = inr r2 /\
    spatialFrequency r2 <= spatialFrequency r1 /\
    (forall n1 n2,
       normalizedFrequency r1 = Some n1 -> normalizedFrequency r2 = Some n2 ->
       n2 <= n1).
Proof.
  intros Hf Hw H1 H12 H2.
  pose proof (cutoff_pos fNumber wavelengthNm Hf Hw) as Hk.
  set (k := 1 / (wavelengthNm * 1e-6 * fNumber)) in *.
  assert (Hpos : forall c, 0 < c < 100 ->
            0 <= u (while_loop maxIterations (c / 100) init)).
  { intros c Hc. destruct (bisection_settled c Hc) as [_ Su _].
    rewrite half_pow_20 in Su. lra. }
  destruct (Req_dec c2 100) as [E2|N2]; [destruct (Req_dec c1 100) as [E1|N1]|].
  - do 2 eexists. split; [apply path_full; auto|].
    split; [apply path_full; auto|].
    cbn [spatialFrequency normalizedFrequency]. split; [lra|].
    intros n1 n2 _ E. discriminate E.
  - do 2 eexists. split; [apply path_bisection; auto; lra|].
    split; [apply path_full; auto|].
    cbn [spatialFrequency normalizedFrequency]. fold k.
    split; [|intros n1 n2 _ E; discriminate E].
    specialize (Hpos c1 ltac:(lra)).
    set (x := u (while_loop maxIterations (c1 / 100) init)) in *.
    replace 0 with (IZR 0 / 10 ^ 1) by (simpl; lra).
    apply toFixed_lower; [apply Rmult_le_pos; lra|].
    assert (0 <= x * k) by (apply Rmult_le_pos; lra). simpl. lra.
  - assert (Hu : u (while_loop maxIterations (c2 / 100) init) <=
                 u (while_loop maxIterations (c1 / 100) init)).
    { apply while_loop_antitone; [|simpl; lra].
      apply Rmult_le_compat_r; lra. }
    pose proof (Hpos c2 ltac:(lra)) as P2.
    set (u1 := u (while_loop maxIterations (c1 / 100) init)) in *.
    set (u2 := u (while_loop maxIterations (c2 / 100) init)) in *.
    exists {| spatialFrequency := Num.toFixed (u1 * k) 1;
              cutoffFrequency := Num.toFixed k 1;
              normalizedFrequency := Some (Num.toFixed u1 6);
              iterations :=
                Some (count (while_loop maxIterations (c1 / 100) init)) |},
           {| spatialFrequency := Num.toFixed (u2 * k) 1;
              cutoffFrequency := Num.toFixed k 1;
              normalizedFrequency := Some (Num.toFixed u2 6);
              iterations :=
                Some (count (while_loop maxIterations (c2 / 100) init)) |}.
    split; [apply path_bisection; [exact Hf|exact Hw|lra]|].
    split; [apply path_bisection; [exact Hf|exact Hw|lra]|].
    cbn [spatialFrequency normalizedFrequency]. split.
    + apply toFixed_monotone; [apply Rmult_le_pos; lra|].
      apply Rmult_le_compat_r; lra.
    + intros n1 n2 E1 E2.
      injection E1 as <-. injection E2 as <-.
      apply toFixed_monotone; [exact P2|exact Hu].
Qed.

Lemma frequencies_non_increasing_witness :
  exists r1 r2,
    calculateDiffractionLimit 8 10 520 = inr r1 /\
    calculateDiffractionLimit 8 50 520 = inr r2 /\
    spatialFrequency r2 <= spatialFrequency r1 /\
    (forall n1 n2,
       normalizedFrequency r1 = Some n1 -> normalizedFrequency r2 = Some n2 ->
       n2 <= n1).
Proof. apply (frequencies_non_increasing 8 520 10 50); lra. Defined.

(** X6.  On the bisection path the record shows the computed values to
    within one unit of its last decimal: both frequencies are within 0.1 of
    [u * cutoff] and of the cutoff, and the normalised frequency is within
    [1e-6] of [u]. *)
Theorem record_rounding (fNumber contrastPercent wavelengthNm : R) :
  0 < fNumber -> 0 < contrastPercent < 100 -> 0 < wavelengthNm ->
  let cutoff := 1 / (wavelengthNm * 1e-6 * fNumber) in
  let s := while_loop maxIterations (contrastPercent / 100) init in
  exists r n,
    calculateDiffractionLimit fNumber contrastPercent wavelengthNm = inr r /\
    normalizedFrequency r = Some n /\
    Rabs (spatialFrequency r - u s * cutoff) <= 1 / 10 /\
    Rabs (cutoffFrequency r - cutoff) <= 1 / 10 /\
    Rabs (n - u s) <= 1 / 1000000.
Proof.
  intros Hf Hc Hw cutoff s.
  pose proof (cutoff_pos fNumber wavelengthNm Hf Hw) as Hk. fold cutoff in Hk.
  destruct (bisection_settled contrastPercent Hc) as [_ Su _]. fold s in Su.
  rewrite half_pow_20 in Su.
  assert (Hx : 0 <= u s * cutoff) by (apply Rmult_le_pos; lra).
  pose proof (toFixed_near 1 (u s * cutoff) Hx) as [A1 A2].
  pose proof (toFixed_near 1 cutoff ltac:(lra)) as [B1 B2].
  pose proof (toFixed_near 6 (u s) ltac:(lra)) as [C1 C2].
  assert (S1 : 10 ^ 1 = 10) by (simpl; lra).
  assert (S6 : 10 ^ 6 = 1000000) by (simpl; lra).
  rewrite S1 in A1, A2, B1, B2. rewrite S6 in C1, C2.
  do 2 eexists. split; [apply path_bisection; assumption|].
  cbn [spatialFrequency cutoffFrequency normalizedFrequency].
  fold cutoff. fold s. split; [reflexivity|].
  repeat split; apply Rabs_le; lra.
Qed.

Lemma record_rounding_witness :
  exists r n,
    calculateDiffractionLimit 8 10 520 = inr r /\
    normalizedFrequency r = Some n /\
    Rabs (spatialFrequency r -
          u (while_loop maxIterations (10 / 100) init) * (1 / (520 * 1e-6 * 8)))
      <= 1 / 10 /\
    Rabs (cutoffFrequency r - 1 / (520 * 1e-6 * 8)) <= 1 / 10 /\
    Rabs (n - u (while_loop maxIterations (10 / 100) init)) <= 1 / 1000000.
Proof. apply (record_rounding 8 10 520); lra. Defined.

(** X7.  The iteration count tells how the loop ended.  Fewer than 20
    iterations: the loop left at its [break], with [mtf u] within the
    tolerance [1e-6] of the target.  Exactly 20: [u] is an end of an interval
    of width [2^-20] inside [[0,1]] across which [mtf] passes the target. *)
Theorem iterations_tell_exit (fNumber contrastPercent wavelengthNm : R) :
  0 < fNumber -> 0 < contrastPercent < 100 -> 0 < wavelengthNm ->
  let targetMtf := contrastPercent / 100 in
  let s := while_loop maxIterations targetMtf init in
  exists r,
    calculateDiffractionLimit fNumber contrastPercent wavelengthNm = inr r /\
    iterations r = Some (count s) /\
    ((count s < 20)%nat -> Rabs (mtf (u s) - targetMtf) < tolerance) /\
    (count s = 20%nat ->
     high s - low s = (/ 2) ^ 20 /\ 0 <= low s /\ high s <= 1 /\
     (u s = low s \/ u s = high s) /\
     mtf (high s) <= targetMtf < mtf (low s)).
Proof.
  intros Hf Hc Hw targetMtf s.
  assert (B : bracket targetMtf init) by (apply bracket_init; unfold targetMtf; lra).
  pose proof (while_loop_ends targetMtf maxIterations init B) as He.
  fold s in He.
  assert (H20 : (20 <= maxIterations + count init)%nat)
    by (unfold maxIterations; simpl; lia).
  specialize (He H20). cbv zeta in He. fold s in He.
  eexists. split; [apply path_bisection; assumption|].
  cbn [iterations]. fold targetMtf. fold s. split; [reflexivity|]. split.
  - intros Hn. destruct He as [[_ A]|[A _]]; [assumption|lia].
  - intros Hn. destruct He as [[A _]|[_ Bs]]; [lia|].
    pose proof (br_width _ s Bs) as W. rewrite Hn in W.
    split; [assumption|]. split; [apply (br_low _ s Bs)|].
    split; [apply (br_high _ s Bs)|]. split.
    + destruct (br_u _ s Bs) as [H0|[Hu _]]; [lia|assumption].
    + split; [apply (br_below _ s Bs)|apply (br_above _ s Bs)].
Qed.

Lemma iterations_tell_exit_witness :
  exists r,
    calculateDiffractionLimit 8 10 520 = inr r /\
    iterations r = Some (count (while_loop maxIterations (10 / 100) init)).
Proof.
  destruct (iterations_tell_exit 8 10 520 ltac:(lra) ltac:(lra) ltac:(lra))
    as [r [A [B _]]].
  exists r. split; assumption.
Defined.

(** ** The command line *)

Section CommandLine.

(** A record is returned exactly for inputs in their domains. *)
Lemma returns_iff_valid (fNumber contrastPercent wavelengthNm : R) :
  (exists r,
     calculateDiffractionLimit fNumber contrastPercent wavelengthNm = inr r)
  <-> 0 < fNumber /\ 0 <= contrastPercent <= 100 /\ 0 < wavelengthNm.
Proof.
  unfold calculateDiffractionLimit, throw. split.
  - intros [r E]. revert E. cmp; simpl; try discriminate; intros _; lra.
  - intros (Hf & Hc & Hw). cmp; simpl; try lra; eexists; reflexivity.
Qed.

(** The order of the two frequencies, for whatever record is returned. *)
Lemma record_order (fNumber contrastPercent wavelengthNm : R) (r : result) :
  calculateDiffractionLimit fNumber contrastPercent wavelengthNm = inr r ->
  spatialFrequency r <= cutoffFrequency r /\
  (forall n, iterations r = Some n -> (n <= 20)%nat).
Proof.
  intros E.
  destruct (proj1 (returns_iff_valid fNumber contrastPercent wavelengthNm))
    as (Hf & Hc & Hw); [exists r; exact E|].
  pose proof (cutoff_pos fNumber wavelengthNm Hf Hw) as Hk.
  destruct (Req_dec contrastPercent 100) as [E100|N100];
    [|destruct (Req_dec contrastPercent 0) as [E0|N0]].
  - rewrite path_full in E by auto. injection E as <-.
    cbn [spatialFrequency cutoffFrequency iterations].
    split; [lra|]. intros n D. discriminate D.
  - rewrite path_zero in E by auto. injection E as <-.
    cbn [spatialFrequency cutoffFrequency iterations].
    split; [lra|]. intros n D. discriminate D.
  - assert (Hc' : 0 < contrastPercent < 100) by lra.
    destruct (bisection_settled contrastPercent Hc') as [Sn Su _].
    rewrite half_pow_20 in Su.
    rewrite path_bisection in E by assumption. cbv zeta in E.
    set (s := while_loop maxIterations (contrastPercent / 100) init) in *.
    set (k := 1 / (wavelengthNm * 1e-6 * fNumber)) in *.
    injection E as <-.
    cbn [spatialFrequency cutoffFrequency iterations]. split.
    + apply toFixed_monotone; [apply Rmult_le_pos; lra|].
      rewrite <- (Rmult_1_l k) at 2. apply Rmult_le_compat_r; lra.
    + intros n D. injection D as <-. exact Sn.
Qed.

Variable parseFloat : string -> option R.
Variable script : string.

Lemma main_parsed (a0 a1 : string) (rest : list string)
    (fNumber contrastPercent wavelengthNm : R) :
  Cli.parse_arguments parseFloat a0 a1 rest =
    inr (fNumber, contrastPercent, wavelengthNm) ->
  Cli.main parseFloat script (a0 :: a1 :: rest) =
  match calculateDiffractionLimit fNumber contrastPercent wavelengthNm with
  | inl (Error message) => ([Cli.CalculationError message], 1%nat)
  | inr r => (Cli.report fNumber contrastPercent wavelengthNm r, 0%nat)
  end.
Proof. intros E. unfold Cli.main. rewrite E. reflexivity. Qed.

End CommandLine.

(** X8.  The script ends with status 0 or 1, and with 0 exactly when it has
    at least two arguments, they read as numbers (the third, when present
    and not empty, too) and the numbers are in the function's domain. *)
Theorem exit_status (parseFloat : string -> option R) (script : string)
    (args : list string) :
  (snd (Cli.main parseFloat script args) = 0%nat \/
   snd (Cli.main parseFloat script args) = 1%nat) /\
  (snd (Cli.main parseFloat script args) = 0%nat <->
   exists a0 a1 rest fNumber contrastPercent wavelengthNm,
     args = a0 :: a1 :: rest /\
     Cli.parse_arguments parseFloat a0 a1 rest =
       inr (fNumber, contrastPercent, wavelengthNm) /\
     0 < fNumber /\ 0 <= contrastPercent <= 100 /\ 0 < wavelengthNm).
Proof.
  destruct args as [|a0 [|a1 rest]].
  - simpl. split; [right; reflexivity|]. split; [discriminate|].
    intros (? & ? & ? & ? & ? & ? & E & _). discriminate E.
  - simpl. split; [right; reflexivity|]. split; [discriminate|].
    intros (? & ? & ? & ? & ? & ? & E & _). discriminate E.
  - destruct (Cli.parse_arguments parseFloat a0 a1 rest)
      as [message|[[f c] w]] eqn:P.
    + unfold Cli.main. rewrite P. simpl.
      split; [right; reflexivity|]. split; [discriminate|].
      intros (b0 & b1 & rest' & f & c & w & E & P' & _).
      injection E as <- <- <-. congruence.
    + rewrite (main_parsed parseFloat script a0 a1 rest f c w P).
      pose proof (returns_iff_valid f c w) as V.
      destruct (calculateDiffractionLimit f c w) as [[message]|r].
      * simpl. split; [right; reflexivity|]. split; [discriminate|].
        intros (b0 & b1 & rest' & f' & c' & w' & E & P' & Hv).
        injection E as <- <- <-. rewrite P in P'. injection P' as <- <- <-.
        apply V in Hv. destruct Hv as [r D]. discriminate D.
      * simpl. split; [left; reflexivity|]. split; [|reflexivity].
        intros _. exists a0, a1, rest, f, c, w.
        split; [reflexivity|]. split; [exact P|].
        apply V. exists r. reflexivity.
Qed.

(** X9.  Arguments that read as numbers outside the function's domain make
    the script write one line, the function's own message on the error
    stream, without the usage text, and end with status 1. *)
Theorem rejected_numbers (parseFloat : string -> option R) (script : string)
    (a0 a1 : string) (rest : list string)
    (fNumber contrastPercent wavelengthNm : R) :
  Cli.parse_arguments parseFloat a0 a1 rest =
    inr (fNumber, contrastPercent, wavelengthNm) ->
  ~ (0 < fNumber /\ 0 <= contrastPercent <= 100 /\ 0 < wavelengthNm) ->
  exists message,
    calculateDiffractionLimit fNumber contrastPercent wavelengthNm =
      inl (Error message) /\
    Cli.main parseFloat script (a0 :: a1 :: rest) =
      ([Cli.CalculationError message], 1%nat) /\
    Cli.to_stderr (Cli.CalculationError message) = true.
Proof.
  intros P Hn.
  rewrite (main_parsed parseFloat script a0 a1 rest _ _ _ P).
  pose proof (returns_iff_valid fNumber contrastPercent wavelengthNm) as V.
  destruct (calculateDiffractionLimit fNumber contrastPercent wavelengthNm)
    as [[message]|r].
  - exists message. repeat split.
  - exfalso. apply Hn, V. exists r. reflexivity.
Qed.

Lemma rejected_numbers_witness :
  exists message,
    calculateDiffractionLimit 0 0 520 = inl (Error message) /\
    Cli.main (fun _ => Some 0) "diffraction.js" ["0"; "0"]%string =
      ([Cli.CalculationError message], 1%nat) /\
    Cli.to_stderr (Cli.CalculationError message) = true.
Proof.
  apply (rejected_numbers (fun _ => Some 0) "diffraction.js" "0" "0" []).
  - reflexivity.
  - lra.
Defined.

(** X10.  At a contrast of 100 the script reports success with no iteration
    count to show and an infinite feature size: the record of the boundary
    return has no [iterations] field and a spatial frequency of 0, which the
    script divides by. *)
Theorem full_contrast_report (parseFloat : string -> option R)
    (script : string) (a0 a1 : string) (rest : list string)
    (fNumber wavelengthNm : R) :
  Cli.parse_arguments parseFloat a0 a1 rest = inr (fNumber, 100, wavelengthNm) ->
  0 < fNumber -> 0 < wavelengthNm ->
  snd (Cli.main parseFloat script (a0 :: a1 :: rest)) = 0%nat /\
  In (Cli.PrecisionLine None)
     (fst (Cli.main parseFloat script (a0 :: a1 :: rest))) /\
  In (Cli.FeatureLine Cli.Infinite)
     (fst (Cli.main parseFloat script (a0 :: a1 :: rest))) /\
  In (Cli.TargetLine 0)
     (fst (Cli.main parseFloat script (a0 :: a1 :: rest))).
Proof.
  intros P Hf Hw.
  rewrite (main_parsed parseFloat script a0 a1 rest _ _ _ P).
  rewrite (path_full fNumber 100 wavelengthNm Hf Hw eq_refl).
  unfold Cli.report, Cli.featureSize.
  cbn [spatialFrequency cutoffFrequency iterations fst snd].
  destruct (Req_dec_T 0 0) as [_|N]; [|exfalso; apply N; reflexivity].
  split; [reflexivity|]. cbn [In]. repeat split; tauto.
Qed.

Lemma full_contrast_report_witness :
  snd (Cli.main (fun _ => Some 100) "diffraction.js" ["100"; "100"]%string)
    = 0%nat.
Proof.
  apply (full_contrast_report (fun _ => Some 100) "diffraction.js"
           "100" "100" [] 100 520); [|lra|lra].
  unfold Cli.parse_arguments. reflexivity.
Defined.

(** X11.  A run that ends with status 0 had two arguments or more, read
    numbers from them and wrote the report of the record the function
    returned for those numbers: nothing on the error stream, a target
    frequency that does not exceed the cutoff frequency, and an iteration
    count of at most 20 when there is one. *)
Theorem successful_run (parseFloat : string -> option R) (script : string)
    (args : list string) (out : list Cli.line) :
  Cli.main parseFloat script args = (out, 0%nat) ->
  exists a0 a1 rest fNumber contrastPercent wavelengthNm r,
    args = a0 :: a1 :: rest /\
    Cli.parse_arguments parseFloat a0 a1 rest =
      inr (fNumber, contrastPercent, wavelengthNm) /\
    calculateDiffractionLimit fNumber contrastPercent wavelengthNm = inr r /\
    out = Cli.report fNumber contrastPercent wavelengthNm r /\
    forallb (fun l => negb (Cli.to_stderr l)) out = true /\
    spatialFrequency r <= cutoffFrequency r /\
    (forall n, iterations r = Some n -> (n <= 20)%nat).
Proof.
  destruct args as [|a0 [|a1 rest]]; try (simpl; discriminate).
  destruct (Cli.parse_arguments parseFloat a0 a1 rest)
    as [message|[[f c] w]] eqn:P.
  - unfold Cli.main. rewrite P. simpl. discriminate.
  - rewrite (main_parsed parseFloat script a0 a1 rest f c w P).
    destruct (calculateDiffractionLimit f c w) as [[message]|r] eqn:D;
      [discriminate|].
    intros E. injection E as <-.
    exists a0, a1, rest, f, c, w, r.
    split; [reflexivity|]. split; [exact P|].
    split; [exact D|]. split; [reflexivity|].
    split; [reflexivity|]. exact (record_order f c w r D).
Qed.

Lemma successful_run_witness :
  exists a0 a1 rest fNumber contrastPercent wavelengthNm r,
    ["8"; "100"]%string = a0 :: a1 :: rest /\
    Cli.parse_arguments
      (fun s => if (s =? "8")%string then Some 8 else Some 100) a0 a1 rest =
      inr (fNumber, contrastPercent, wavelengthNm) /\
    calculateDiffractionLimit fNumber contrastPercent wavelengthNm = inr r /\
    Cli.report 8 100 520
      {| spatialFrequency := 0; cutoffFrequency := 1 / (520 * 1e-6 * 8);
         normalizedFrequency := None; iterations := None |} =
    Cli.report fNumber contrastPercent wavelengthNm r.
Proof.
  destruct (successful_run
              (fun s => if (s =? "8")%string then Some 8 else Some 100)
              "diffraction.js" ["8"; "100"]%string
              (Cli.report 8 100 520
                 {| spatialFrequency := 0;
                    cutoffFrequency := 1 / (520 * 1e-6 * 8);
                    normalizedFrequency := None; iterations := None |}))
    as (a0 & a1 & rest & f & c & w & r & A & B & C & D & _).
  - rewrite (main_parsed
               (fun s => if (s =? "8")%string then Some 8 else Some 100)
               "diffraction.js" "8" "100" [] 8 100 520); [|reflexivity].
    rewrite (path_full 8 100 520 ltac:(lra) ltac:(lra) eq_refl). reflexivity.
  - exists a0, a1, rest, f, c, w, r. repeat split; assumption.
Defined.

(** X12.  Without two arguments the script shows the usage and ends with
    status 1; a text that does not read as a number among the first two makes
    it write the error, then the usage; an empty third argument gives the run
    of the call without it, at a wavelength of 520; and arguments after the
    third change nothing. *)
Theorem argument_handling (parseFloat : string -> option R) (script : string)
    (a0 a1 a2 : string) (rest : list string) :
  Cli.main parseFloat script [] = ([Cli.UsageText script], 1%nat) /\
  Cli.main parseFloat script [a0] = ([Cli.UsageText script], 1%nat) /\
  (parseFloat a0 = None \/ parseFloat a1 = None ->
   Cli.main parseFloat script (a0 :: a1 :: rest) =
   ([Cli.ArgumentError "Invalid numeric values"; Cli.UsageText script], 1%nat)) /\
  Cli.main parseFloat script (a0 :: a1 :: ""%string :: rest) =
  Cli.main parseFloat script [a0; a1] /\
  (forall fNumber contrastPercent,
     parseFloat a0 = Some fNumber -> parseFloat a1 = Some contrastPercent ->
     Cli.parse_arguments parseFloat a0 a1 [] =
       inr (fNumber, contrastPercent, 520)) /\
  Cli.main parseFloat script (a0 :: a1 :: a2 :: rest) =
  Cli.main parseFloat script [a0; a1; a2].
Proof.
  split; [reflexivity|]. split; [reflexivity|]. split; [|split; [|split]].
  - intros Hn. unfold Cli.main, Cli.parse_arguments.
    destruct (parseFloat a0), (parseFloat a1); destruct Hn; try discriminate;
      reflexivity.
  - unfold Cli.main, Cli.parse_arguments.
    destruct (parseFloat a0), (parseFloat a1); reflexivity.
  - intros f c E0 E1. unfold Cli.parse_arguments. rewrite E0, E1. reflexivity.
  - reflexivity.
Qed.

Lemma argument_handling_witness :
  Cli.main (fun _ => None) "diffraction.js" ["f/8"; "ten"]%string =
  ([Cli.ArgumentError "Invalid numeric values";
    Cli.UsageText "diffraction.js"], 1%nat).
Proof.
  apply (proj1 (proj2 (proj2
    (argument_handling (fun _ => None) "diffraction.js" "f/8" "ten" "" [])))).
  left. reflexivity.
Defined.

(** ** The lens *)

(** X13.  At a given contrast a larger f-number or a longer wavelength never
    raises a frequency of the record: neither the cutoff nor the spatial
    frequency. *)
Theorem stopping_down
    (fNumber fNumber' contrastPercent wavelengthNm wavelengthNm' : R) :
  0 < fNumber -> fNumber <= fNumber' ->
  0 < wavelengthNm -> wavelengthNm <= wavelengthNm' ->
  0 <= contrastPercent <= 100 ->
  exists r r',
    calculateDiffractionLimit fNumber contrastPercent wavelengthNm = inr r /\
    calculateDiffractionLimit fNumber' contrastPercent wavelengthNm' = inr r' /\
    cutoffFrequency r' <= cutoffFrequency r /\
    spatialFrequency r' <= spatialFrequency r.
Proof.
  intros Hf Hff Hw Hww Hc.
  assert (Hf' : 0 < fNumber') by lra.
  assert (Hw' : 0 < wavelengthNm') by lra.
  pose proof (cutoff_pos fNumber wavelengthNm Hf Hw) as Hk.
  pose proof (cutoff_pos fNumber' wavelengthNm' Hf' Hw') as Hk'.
  assert (Hkk : 1 / (wavelengthNm' * 1e-6 * fNumber') <=
                1 / (wavelengthNm * 1e-6 * fNumber)).
  { unfold Rdiv. rewrite !Rmult_1_l. apply Rinv_le_contravar.
    - apply Rmult_lt_0_compat; [|assumption].
      apply Rmult_lt_0_compat; lra.
    - apply Rmult_le_compat; lra. }
  set (k := 1 / (wavelengthNm * 1e-6 * fNumber)) in *.
  set (k' := 1 / (wavelengthNm' * 1e-6 * fNumber')) in *.
  destruct (Req_dec contrastPercent 100) as [E100|N100];
    [|destruct (Req_dec contrastPercent 0) as [E0|N0]].
  - do 2 eexists. split; [apply path_full; auto|].
    split; [apply path_full; auto|].
    cbn [spatialFrequency cutoffFrequency]. fold k. fold k'. lra.
  - do 2 eexists. split; [apply path_zero; auto|].
    split; [apply path_zero; auto|].
    cbn [spatialFrequency cutoffFrequency]. fold k. fold k'. lra.
  - assert (Hc' : 0 < contrastPercent < 100) by lra.
    destruct (bisection_settled contrastPercent Hc') as [_ Su _].
    rewrite half_pow_20 in Su.
    set (s := while_loop maxIterations (contrastPercent / 100) init) in *.
    exists {| spatialFrequency := Num.toFixed (u s * k) 1;
              cutoffFrequency := Num.toFixed k 1;
              normalizedFrequency := Some (Num.toFixed (u s) 6);
              iterations := Some (count s) |},
           {| spatialFrequency := Num.toFixed (u s * k') 1;
              cutoffFrequency := Num.toFixed k' 1;
              normalizedFrequency := Some (Num.toFixed (u s) 6);
              iterations := Some (count s) |}.
    split; [apply path_bisection; assumption|].
    split; [apply path_bisection; assumption|].
    cbn [spatialFrequency cutoffFrequency]. split.
    + apply toFixed_monotone; lra.
    + apply toFixed_monotone; [apply Rmult_le_pos; lra|].
      apply Rmult_le_compat_l; lra.
Qed.

Lemma stopping_down_witness :
  exists r r',
    calculateDiffractionLimit 8 10 520 = inr r /\
    calculateDiffractionLimit 16 10 650 = inr r' /\
    cutoffFrequency r' <= cutoffFrequency r /\
    spatialFrequency r' <= spatialFrequency r.
Proof. apply (stopping_down 8 16 10 520 650); lra. Defined.
